(** * pip-check: reconciliation of a pinned requirements file with its sources

    Shallow embedding of [piptools/scripts/check.py] ([cli]: its handling
    of the arguments and its body from "Start checking the requirements
    file" on; [ErrorCounter], [format_comes_from] and [format_constraint])
    and the properties of its specification.

    Python's [dict] is a [gmap]; the mutable [ErrorCounter] is passed
    explicitly; an uncaught Python exception is a value of [exn]. *)

From Stdlib Require Import Ascii.
From stdpp Require Import gmap strings list fin_maps pretty.

Open Scope string_scope.

(** ** Requirement records

    [InstallRequirement] belongs to pip; the tool reads the attributes
    below.  As in pip, [name] and [specifier] are properties that go
    through [req]. *)

(** [Specifier._spec]: the pair (operator, version). *)
Definition Spec : Type := string * string.

Record Requirement := {
  req_name : string;
  req_specifier : list Spec;   (* [SpecifierSet._specs], in iteration order *)
}.

Record InstallRequirement := {
  req : option Requirement;
  editable : bool;
  constraint : bool;
  markers : option string;     (* text of the environment marker, if any *)
  comes_from : string;
  link : option string;        (* direct location (URL or path), if any *)
}.

(** [ireq.name]: [None] when [ireq.req] is [None]. *)
Definition name (ireq : InstallRequirement) : option string :=
  req_name <$> req ireq.

(** Python truth value of an optional string. *)
Definition truthy (s : option string) : bool :=
  match s with
  | Some s => negb (String.eqb s "")
  | None => false
  end.

(** Truth value of [ireq.req and ireq.req.specifier]: a [SpecifierSet] is
    true when it has at least one clause. *)
Definition has_specifier (ireq : InstallRequirement) : bool :=
  match req ireq with
  | Some r => match req_specifier r with [] => false | _ :: _ => true end
  | None => false
  end.

(** ** Collaborators *)

(** The helpers of [piptools.utils] that [cli] calls. *)
Class Utils := {
  key_from_ireq : InstallRequirement → string;
  is_pinned_requirement : InstallRequirement → bool;
  is_url_requirement : InstallRequirement → bool;
  format_requirement : InstallRequirement → string;
}.

(** The two calls into the packaging library: [SpecifierSet.contains] and
    [Marker.evaluate] (against the current environment). *)
Class Packaging := {
  contains : list Spec → string → bool;
  evaluate : string → bool;
}.

(** ** ErrorCounter *)

Inductive level := ERROR | WARNING | INFO | DEBUG.

#[global] Instance level_eq_dec : EqDecision level.
Proof. solve_decision. Defined.

Record ErrorCounter := {
  errors : nat;
  warnings : nat;
  logger : list (level * string);   (* what the logger has been sent so far *)
  verbose : bool;
}.

(** [ErrorCounter(logger=log, quiet=quiet)]; [quiet] is click's count. *)
Definition new_counter (quiet : nat) : ErrorCounter :=
  {| errors := 0; warnings := 0; logger := []; verbose := (quiet =? 0)%nat |}.

(** [ErrorCounter.__bool__] *)
Definition any_failure (f : ErrorCounter) : bool :=
  negb (errors f =? 0)%nat || negb (warnings f =? 0)%nat.

(** [logger.<level>(msg)] on the counter's logger. *)
Definition log_to (lv : level) (msg : string) (f : ErrorCounter) : ErrorCounter :=
  {| errors := errors f; warnings := warnings f;
     logger := logger f ++ [(lv, msg)]; verbose := verbose f |}.

Definition error (msg : string) (f : ErrorCounter) : ErrorCounter :=
  let f := if verbose f then log_to ERROR msg f else f in
  {| errors := S (errors f); warnings := warnings f;
     logger := logger f; verbose := verbose f |}.

Definition warning (msg : string) (f : ErrorCounter) : ErrorCounter :=
  let f := if verbose f then log_to WARNING msg f else f in
  {| errors := errors f; warnings := S (warnings f);
     logger := logger f; verbose := verbose f |}.

(** What the logger was sent at one level, in order. *)
Definition messages (lv : level) (f : ErrorCounter) : list string :=
  (filter (λ r, r.1 = lv) (logger f)).*2.

(** ** Failures as values

    The exceptions that the body of [cli] can raise and does not catch. *)
Inductive exn :=
  | KeyError (key : string)     (* [existing_pins[key]], key not in the dict *)
  | StopIteration               (* [next(iter(...))] on an empty collection *)
  | AttributeError.             (* [.specifier] on a record whose [req] is [None] *)

(** How a computation over the counter ends: with a value, or with an
    exception; either way with the counter as it then stands. *)
Inductive outcome (A : Type) :=
  | Done (a : A) (f : ErrorCounter)
  | Raised (e : exn) (f : ErrorCounter).
Arguments Done {A} a f.
Arguments Raised {A} e f.

Definition M (A : Type) : Type := ErrorCounter → outcome A.

Definition ret {A} (a : A) : M A := λ f, Done a f.
Definition raise {A} (e : exn) : M A := λ f, Raised e f.
Definition bind {A B} (m : M A) (k : A → M B) : M B :=
  λ f, match m f with
       | Done a f' => k a f'
       | Raised e f' => Raised e f'
       end.
(** A call of a method of the counter. *)
Definition call (op : ErrorCounter → ErrorCounter) : M unit := λ f, Done tt (op f).

Notation "'let*' x ':=' m 'in' k" := (bind m (λ x, k))
  (at level 10, x name, m at level 100, k at level 200, only parsing).
Notation "m >> k" := (bind m (λ _, k))
  (at level 62, right associativity, only parsing).

(** [for x in l: body(x)] *)
Fixpoint for_each {X} (body : X → M unit) (l : list X) : M unit :=
  match l with
  | [] => ret tt
  | x :: l => body x >> for_each body l
  end.

(** The counter at the end of a computation. *)
Definition counter_of {A} (o : outcome A) : ErrorCounter :=
  match o with Done _ f | Raised _ f => f end.

(** ** Formatting *)

(** [s[3:]] *)
Definition drop3 (s : string) : string := String.substring 3 (String.length s - 3) s.

Definition format_comes_from (ireq : InstallRequirement) : string :=
  let comes_from := comes_from ireq in
  if String.prefix "-r " comes_from then drop3 comes_from else comes_from.

Section Check.
Context `{Utils} `{Packaging}.

Definition format_constraint (ireq : InstallRequirement) : string :=
  let requirement := format_requirement ireq in
  let comes_from := comes_from ireq in
  let comes_from :=
    if String.prefix "-r " comes_from || String.prefix "-c " comes_from
    then drop3 comes_from else comes_from in
  requirement +:+ " from " +:+ comes_from.

(** ** The pass over the file being checked *)

Definition editable_msg (ireq : InstallRequirement) : string :=
  format_requirement ireq +:+ " is editable".
Definition unpinned_msg (ireq : InstallRequirement) : string :=
  format_requirement ireq +:+ " is unpinned".
Definition duplicate_msg (ireq previous : InstallRequirement) : string :=
  format_requirement ireq +:+ " is a duplicate of " +:+ format_requirement previous.

(** Lines 182-183. *)
Definition note_unpinned (ireq : InstallRequirement) (f : ErrorCounter) : ErrorCounter :=
  if negb (is_pinned_requirement ireq) && negb (is_url_requirement ireq)
  then warning (unpinned_msg ireq) f else f.

(** Lines 184-185. *)
Definition note_duplicate (existing_pins : gmap string InstallRequirement)
    (ireq : InstallRequirement) (f : ErrorCounter) : ErrorCounter :=
  match existing_pins !! key_from_ireq ireq with
  | Some previous => error (duplicate_msg ireq previous) f
  | None => f
  end.

(** Lines 181-186: the part of the loop body after the [if]/[elif]. *)
Definition register (existing_pins : gmap string InstallRequirement)
    (ireq : InstallRequirement) (failures : ErrorCounter)
    : gmap string InstallRequirement * ErrorCounter :=
  let key := key_from_ireq ireq in
  let failures := note_unpinned ireq failures in
  let failures := note_duplicate existing_pins ireq failures in
  (<[key := ireq]> existing_pins, failures).

(** One iteration of [for ireq in ireqs] (lines 175-186). *)
Definition pin_step (st : gmap string InstallRequirement * ErrorCounter)
    (ireq : InstallRequirement) : gmap string InstallRequirement * ErrorCounter :=
  let '(existing_pins, failures) := st in
  if editable ireq then
    register existing_pins ireq
      (if truthy (name ireq) then warning (editable_msg ireq) failures else failures)
  else
    match req ireq with
    | None => (existing_pins, failures)            (* continue *)
    | Some _ => register existing_pins ireq failures
    end.

(** Lines 174-186. *)
Definition collect_pins (ireqs : list InstallRequirement) (failures : ErrorCounter)
    : gmap string InstallRequirement * ErrorCounter :=
  foldl pin_step (∅, failures) ireqs.

(** The records for which the loop body gets past line 180. *)
Definition reaches_key (ireq : InstallRequirement) : bool :=
  editable ireq || bool_decide (is_Some (req ireq)).

(** ** The pass over the source requirements *)

(** [ireq.specifier]: pip's property reads [ireq.req.specifier]. *)
Definition specifier (ireq : InstallRequirement) : M (list Spec) :=
  match req ireq with
  | Some r => ret (req_specifier r)
  | None => raise AttributeError
  end.

(** [_, version = next(iter(pin.specifier._specs))._spec] *)
Definition first_version (pin : InstallRequirement) : M string :=
  let* specs := specifier pin in
  match specs with
  | [] => raise StopIteration
  | (_, version) :: _ => ret version
  end.

(** [existing_pins[key]] *)
Definition getitem (existing_pins : gmap string InstallRequirement) (key : string)
    : M InstallRequirement :=
  match existing_pins !! key with
  | Some pin => ret pin
  | None => raise (KeyError key)
  end.

Definition missing_msg (ireq : InstallRequirement) : string :=
  "missing requirement " +:+ format_constraint ireq.
Definition incompatible_msg (pin ireq : InstallRequirement) : string :=
  "incompatible requirements found, " +:+ format_requirement pin
    +:+ " violates constraint " +:+ format_constraint ireq.

(** One iteration of [for ireq in constraints] (lines 228-237). *)
Definition check_step (existing_pins : gmap string InstallRequirement)
    (ireq : InstallRequirement) : M unit :=
  let key := key_from_ireq ireq in
  if negb (constraint ireq) && bool_decide (existing_pins !! key = None) then
    call (error (missing_msg ireq))                 (* continue *)
  else
    let* pin := getitem existing_pins key in
    if has_specifier ireq then
      let* version := first_version pin in
      let* specs := specifier ireq in
      if negb (contains specs version) then
        call (error (incompatible_msg pin ireq))
      else ret tt
    else ret tt.

(** Lines 219-221. *)
Definition primary_packages (constraints : list InstallRequirement) : gset string :=
  list_to_set (key_from_ireq <$> filter (λ ireq, constraint ireq = false) constraints).

(** The condition of the comprehension of lines 224-226. *)
Definition marker_holds (ireq : InstallRequirement) : bool :=
  match markers ireq with
  | None => true
  | Some m => evaluate m
  end.

(** Lines 192-226, from the parsed source files: the set of primary keys
    and the list that the loop of line 228 runs over. *)
Definition collect_sources (sources : list (list InstallRequirement))
    : gset string * list InstallRequirement :=
  let constraints := concat sources in
  let primary_packages := primary_packages constraints in
  let constraints := filter (λ req, marker_holds req = true) constraints in
  (primary_packages, constraints).

(** ** The end of the run (lines 239-247) *)

Definition summary_msg (failures : ErrorCounter) (req_file : string) : string :=
  "pip-check found " +:+ pretty (errors failures) +:+ " errors and "
    +:+ pretty (warnings failures) +:+ " warnings in " +:+ req_file.

(** The value is the exit status of the process: 1 for [sys.exit(1)], 0
    when [cli] returns. *)
Definition report (req_file : string) (custom_compile_command : option string) : M Z :=
  λ failures,
  let msg := summary_msg failures req_file in
  if any_failure failures then
    let failures := log_to INFO msg failures in
    let compile_command := default "pip-compile" custom_compile_command in
    let failures := log_to INFO ("Use " +:+ compile_command +:+ " to fix these") failures in
    if negb (errors failures =? 0)%nat then Done 1%Z failures else Done 0%Z failures
  else Done 0%Z (log_to DEBUG msg failures).

(** ** [cli], from line 151 on

    [ireqs] is what [parse_requirements] gives for the file being checked,
    [sources] what it gives for each source file, [custom_compile_command]
    the value of the environment variable of that name.  The option
    [--verbose] only sets the verbosity of the logger and is left out. *)
Definition cli (quiet : nat) (req_file : string) (custom_compile_command : option string)
    (ireqs : list InstallRequirement) (sources : list (list InstallRequirement))
    : outcome Z :=
  let failures := new_counter quiet in
  let '(existing_pins, failures) := collect_pins ireqs failures in
  let '(primary_packages, constraints) := collect_sources sources in
  (for_each (check_step existing_pins) constraints >>
   report req_file custom_compile_command) failures.

End Check.

(** ** The arguments of [cli] (lines 99-145)

    [source_file] is the tuple of the [--source-file] options, [req_file]
    the optional argument ([None] when it is not given), [path_exists] what
    [os.path.exists] answers. *)

Definition DEFAULT_REQUIREMENTS_SOURCE_FILE : string := "requirements.in".
Definition DEFAULT_REQUIREMENTS_FILE : string := "requirements.txt".

(** [s.endswith(suffix)] *)
Definition endswith (s suffix : string) : bool :=
  (String.length suffix <=? String.length s)%nat &&
  String.eqb (String.substring (String.length s - String.length suffix)
                (String.length suffix) s) suffix.

Fixpoint contains_dot (s : string) : bool :=
  match s with
  | EmptyString => false
  | String c s => bool_decide (c = "."%char) || contains_dot s
  end.

(** [s.rsplit(".", 1)[0]]: what stands before the last dot, and all of [s]
    when it has no dot. *)
Fixpoint rsplit_dot_head (s : string) : string :=
  match s with
  | EmptyString => EmptyString
  | String c s' =>
      if contains_dot s' then String c (rsplit_dot_head s')
      else if bool_decide (c = "."%char) then EmptyString
      else s
  end.

(** How lines 99-145 end: with [click.BadParameter], or with the file to
    check and the source files that the rest of [cli] goes on with. *)
Inductive arguments :=
  | BadParameter (message : string)
  | Files (req_file : string) (source_file : list string).

Section Arguments.
Variable path_exists : string → bool.

(** Lines 118-145, for a [req_file] that is settled. *)
Definition resolve_source_file (source_file : list string) (req_file : string) : arguments :=
  if (length source_file =? 0)%nat then
    if String.eqb req_file "-" then
      (* lines 121 and 123 assign to [source_files], a name that nothing
         reads: [source_file] stays as it is *)
      if path_exists DEFAULT_REQUIREMENTS_SOURCE_FILE then Files req_file source_file
      else if path_exists "setup.py" then Files req_file source_file
      else BadParameter ("If input is from stdin, the default is "
                           +:+ DEFAULT_REQUIREMENTS_SOURCE_FILE +:+ " or setup.py")
    else
      let base_name := rsplit_dot_head req_file in
      let file_name := base_name +:+ ".in" in
      if path_exists file_name then Files req_file [file_name]
      else if path_exists "setup.py" then Files req_file ["setup.py"]
      else BadParameter ("If you do not specify a source file, the default is "
                           +:+ file_name +:+ " or setup.py")
  else Files req_file source_file.

(** Lines 111-145. *)
Definition check_req_file (source_file : list string) (req_file : string) : arguments :=
  if endswith req_file ".in" then
    BadParameter ("req_file has the .in extensions, which is most likely an error "
      +:+ "and will most likely fail the checks. You probably meant to use "
      +:+ "the corresponding *.txt file?")
  else resolve_source_file source_file req_file.

(** Lines 99-145. *)
Definition resolve_arguments (source_file : list string) (req_file : option string)
    : arguments :=
  if negb (truthy req_file) then
    if (1 <? length source_file)%nat then
      BadParameter "REQ_FILE is required if two or more source files are given"
    else if path_exists DEFAULT_REQUIREMENTS_FILE then
      check_req_file source_file DEFAULT_REQUIREMENTS_FILE
    else
      BadParameter ("No requirement file given and no " +:+ DEFAULT_REQUIREMENTS_FILE
                      +:+ " found in the current directory")
  else check_req_file source_file (default "" req_file).

End Arguments.

(** ** The helpers, as the specification describes them *)

Module SpecModel.

Definition lower (c : ascii) : ascii :=
  let n := nat_of_ascii c in
  if (65 <=? n)%nat && (n <=? 90)%nat then ascii_of_nat (n + 32) else c.

Definition separator (c : ascii) : ascii :=
  if bool_decide (c = "_"%char ∨ c = "."%char) then "-"%char else c.

Fixpoint map_chars (g : ascii → ascii) (s : string) : string :=
  match s with
  | EmptyString => EmptyString
  | String c s => String (g c) (map_chars g s)
  end.

(** Modelled from the spec: [piptools/utils.py] is not among the sources.
    The Identity Normalizer is case-insensitive and treats [-], [_] and [.]
    as the same separator. *)
Definition normalize (name : string) : string :=
  map_chars (λ c, separator (lower c)) name.

(** Modelled from the spec: [utils.key_from_ireq] is missing; the identity
    key is the canonical form of the name, and is empty exactly when the
    name is absent. *)
Definition key_from_ireq (ireq : InstallRequirement) : string :=
  match name ireq with
  | Some n => normalize n
  | None => ""
  end.

(** Modelled from the spec: [utils.is_pinned_requirement] is missing; a
    record is pinned when it has at least one exact-equality clause. *)
Definition is_pinned_requirement (ireq : InstallRequirement) : bool :=
  match req ireq with
  | Some r => existsb (λ c, String.eqb c.1 "==") (req_specifier r)
  | None => false
  end.

(** Modelled from the spec: [utils.is_url_requirement] is missing; a
    record is URL-based when it references a direct artifact location. *)
Definition is_url_requirement (ireq : InstallRequirement) : bool :=
  bool_decide (is_Some (link ireq)).

Fixpoint join (sep : string) (l : list string) : string :=
  match l with
  | [] => ""
  | [x] => x
  | x :: l => x +:+ sep +:+ join sep l
  end.

(** Modelled from the spec: [utils.format_requirement] is missing; the
    examples of the specification render a named record as its name followed
    by its clauses ([six==1.9.0], [six]).  A record without a name is
    rendered as its location. *)
Definition format_requirement (ireq : InstallRequirement) : string :=
  match req ireq with
  | Some r => req_name r +:+ join "," ((λ c, c.1 +:+ c.2) <$> req_specifier r)
  | None => default "" (link ireq)
  end.

#[export] Instance utils : Utils :=
  Build_Utils key_from_ireq is_pinned_requirement is_url_requirement format_requirement.

End SpecModel.

(** ** A packaging library and an environment for the examples

    Enough of PEP 440 for the examples: a version is a dot-separated
    sequence of numbers, compared component by component with missing
    components read as zero. *)

Module Sample.

Fixpoint release_of (s : string) (cur : nat) : list nat :=
  match s with
  | EmptyString => [cur]
  | String c s =>
      let n := nat_of_ascii c in
      if bool_decide (c = "."%char) then cur :: release_of s 0
      else if (48 <=? n)%nat && (n <=? 57)%nat then release_of s (10 * cur + (n - 48))
      else release_of s cur
  end.

Definition all_zero (l : list nat) : bool := forallb (λ n, (n =? 0)%nat) l.

Fixpoint compare_release (a b : list nat) : comparison :=
  match a, b with
  | [], _ => if all_zero b then Eq else Lt
  | _ :: _, [] => if all_zero a then Eq else Gt
  | x :: a, y :: b =>
      match (x ?= y)%nat with
      | Eq => compare_release a b
      | c => c
      end
  end.

Definition clause_holds (version : string) (c : Spec) : bool :=
  let '(op, wanted) := c in
  let cmp := compare_release (release_of version 0) (release_of wanted 0) in
  if String.eqb op "==" then bool_decide (cmp = Eq)
  else if String.eqb op "!=" then negb (bool_decide (cmp = Eq))
  else if String.eqb op ">=" then negb (bool_decide (cmp = Lt))
  else if String.eqb op "<=" then negb (bool_decide (cmp = Gt))
  else if String.eqb op ">" then bool_decide (cmp = Gt)
  else if String.eqb op "<" then bool_decide (cmp = Lt)
  else if String.eqb op "===" then String.eqb version wanted
  else false.

Definition contains (specs : list Spec) (version : string) : bool :=
  forallb (clause_holds version) specs.

(** The environment of the examples: a Linux host. *)
Definition evaluate (marker : string) : bool :=
  String.eqb marker "sys_platform == 'linux'".

#[export] Instance packaging : Packaging := Build_Packaging contains evaluate.

(** The record that pip makes of the line [name op version, ...] of a file:
    [flag] is [-r] or [-c], [origin] the file and the line. *)
Definition parsed (flag origin : string) (name : string) (specs : list Spec)
    (marker : option string) : InstallRequirement :=
  {| req := Some {| req_name := name; req_specifier := specs |};
     editable := false;
     constraint := String.eqb flag "-c";
     markers := marker;
     comes_from := flag +:+ " " +:+ origin;
     link := None |}.

(** The record of a line [-e location] whose location gives no name. *)
Definition editable_location (origin location : string) : InstallRequirement :=
  {| req := None;
     editable := true;
     constraint := false;
     markers := None;
     comes_from := "-r " +:+ origin;
     link := Some location |}.

Definition txt (n : nat) : string := "requirements.txt (line " +:+ pretty n +:+ ")".
Definition src (n : nat) : string := "requirements.in (line " +:+ pretty n +:+ ")".

(** Lines of the file being checked. *)
Definition six_1_9_0 : InstallRequirement := parsed "-r" (txt 1) "six" [("==", "1.9.0")] None.
Definition six_1_10_0 : InstallRequirement := parsed "-r" (txt 2) "six" [("==", "1.10.0")] None.
Definition gnureadline_6_6_3 : InstallRequirement :=
  parsed "-r" (txt 1) "gnureadline" [("==", "6.6.3")] None.
Definition six_1_9_0_second : InstallRequirement :=
  parsed "-r" (txt 2) "six" [("==", "1.9.0")] None.
Definition six_unpinned : InstallRequirement := parsed "-r" (txt 1) "six" [] None.
Definition local_pkg : InstallRequirement := editable_location (txt 1) "./pkg".

(** Lines of the source files. *)
Definition six_any : InstallRequirement := parsed "-r" (src 1) "six" [] None.
Definition six_exactly_1_10_0 : InstallRequirement :=
  parsed "-r" (src 1) "six" [("==", "1.10.0")] None.
Definition six_at_least_1_0 : InstallRequirement :=
  parsed "-r" (src 1) "six" [(">=", "1.0")] None.
Definition django_any : InstallRequirement := parsed "-r" (src 1) "django" [] None.
Definition six_second : InstallRequirement := parsed "-r" (src 2) "six" [] None.
Definition six_constraint : InstallRequirement :=
  parsed "-c" "constraints.txt (line 1)" "six" [(">=", "1.10.0")] None.
Definition pywin32_on_windows : InstallRequirement :=
  parsed "-r" (src 1) "pywin32" [] (Some "sys_platform == 'win32'").

(** Runs of the examples: verbose, file [requirements.txt], no
    [CUSTOM_COMPILE_COMMAND]. *)
Definition run (ireqs : list InstallRequirement) (sources : list (list InstallRequirement))
    : outcome Z :=
  cli (H := SpecModel.utils) 0 "requirements.txt" None ireqs sources.

End Sample.

(** ** Vocabulary of the properties *)

(** Everything that concerns errors is the same in [f] and [f']. *)
Definition same_errors (f f' : ErrorCounter) : Prop :=
  errors f' = errors f ∧ verbose f' = verbose f ∧ messages ERROR f' = messages ERROR f.

(** The last record of the file with the given key, among those that get
    past line 180. *)
Definition last_read `{Utils} (key : string) (ireqs : list InstallRequirement)
    : option InstallRequirement :=
  last (filter (λ r, reaches_key r = true ∧ key_from_ireq r = key) ireqs).

(** Lines 151-237 of [cli]: the two passes, before the report. *)
Definition checks `{Utils} `{Packaging} (quiet : nat)
    (ireqs : list InstallRequirement) (sources : list (list InstallRequirement))
    : outcome unit :=
  for_each (check_step (collect_pins ireqs (new_counter quiet)).1)
    (collect_sources sources).2 (collect_pins ireqs (new_counter quiet)).2.

(** Everything that concerns warnings is the same in [f] and [f']. *)
Definition same_warnings (f f' : ErrorCounter) : Prop :=
  warnings f' = warnings f ∧ messages WARNING f' = messages WARNING f.

(** The warnings that the pass over the file being checked issues for one
    record, in order. *)
Definition pin_warnings `{Utils} (ireq : InstallRequirement) : list string :=
  ((if editable ireq && truthy (name ireq) then [editable_msg ireq] else []) ++
   (if reaches_key ireq && negb (is_pinned_requirement ireq) && negb (is_url_requirement ireq)
    then [unpinned_msg ireq] else []))%list.

(** The keys of the records of the file that get past line 180. *)
Definition read_keys `{Utils} (ireqs : list InstallRequirement) : list string :=
  key_from_ireq <$> filter (λ r, reaches_key r = true) ireqs.

(** The step of the loop over the source records completes for [ireq]. *)
Definition step_ok `{Utils} (existing_pins : gmap string InstallRequirement)
    (ireq : InstallRequirement) : bool :=
  match existing_pins !! key_from_ireq ireq with
  | None => negb (constraint ireq)
  | Some pin => negb (has_specifier ireq) || has_specifier pin
  end.

(** The exception that ends the step when it does not complete. *)
Definition step_exn `{Utils} (existing_pins : gmap string InstallRequirement)
    (ireq : InstallRequirement) : exn :=
  match existing_pins !! key_from_ireq ireq with
  | None => KeyError (key_from_ireq ireq)
  | Some pin => match req pin with None => AttributeError | Some _ => StopIteration end
  end.

(** The version that line 235 takes from a pin. *)
Definition pinned_version (pin : InstallRequirement) : option string :=
  match req pin with
  | Some r => match req_specifier r with [] => None | (_, version) :: _ => Some version end
  | None => None
  end.

(** The step reports [ireq]: as missing, or as incompatible with its pin. *)
Definition reported `{Utils} `{Packaging} (existing_pins : gmap string InstallRequirement)
    (ireq : InstallRequirement) : bool :=
  match existing_pins !! key_from_ireq ireq with
  | None => negb (constraint ireq)
  | Some pin =>
      match req ireq, pinned_version pin with
      | Some r, Some version =>
          has_specifier ireq && negb (contains (req_specifier r) version)
      | _, _ => false
      end
  end.

Definition reported_msg `{Utils} (existing_pins : gmap string InstallRequirement)
    (ireq : InstallRequirement) : string :=
  match existing_pins !! key_from_ireq ireq with
  | None => missing_msg ireq
  | Some pin => incompatible_msg pin ireq
  end.

(** Both counts are the same in [f] and [g]. *)
Definition same_counts (f g : ErrorCounter) : Prop :=
  errors f = errors g ∧ warnings f = warnings g.

(** Two outcomes that differ at most in what the logger was sent. *)
Definition same_result {A} (o o' : outcome A) : Prop :=
  match o, o' with
  | Done a f, Done a' f' => a = a' ∧ same_counts f f'
  | Raised e f, Raised e' f' => e = e' ∧ same_counts f f'
  | _, _ => False
  end.

(** In a verbose counter every finding counted has been logged once; a quiet
    one has logged no finding. *)
Definition tallied (f : ErrorCounter) : Prop :=
  if verbose f
  then length (messages ERROR f) = errors f ∧ length (messages WARNING f) = warnings f
  else messages ERROR f = [] ∧ messages WARNING f = [].

(** The count that goes with a level of the logger. *)
Definition count (lv : level) (f : ErrorCounter) : nat :=
  match lv with
  | ERROR => errors f
  | WARNING => warnings f
  | _ => 0
  end.

(** From [f] to [f'] the findings [ms] of level [lv] were recorded, in
    order, and no other finding of that level. *)
Definition adds (lv : level) (ms : list string) (f f' : ErrorCounter) : Prop :=
  verbose f' = verbose f ∧
  count lv f' = (count lv f + length ms)%nat ∧
  messages lv f' = (messages lv f ++ (if verbose f then ms else []))%list.

(** * Properties *)

Open Scope list_scope.
Open Scope nat_scope.
Set Warnings "-clear-no-such-hyp".

(** ** The counter *)

Lemma messages_log_to lv lv' msg f :
  messages lv (log_to lv' msg f) = messages lv f ++ (if decide (lv' = lv) then [msg] else []).
Proof.
  unfold messages, log_to; simpl.
  rewrite filter_app, fmap_app. f_equal.
  rewrite filter_cons; simpl. destruct (decide (lv' = lv)); reflexivity.
Qed.

Lemma error_spec msg f :
  errors (error msg f) = S (errors f) ∧ warnings (error msg f) = warnings f ∧
  verbose (error msg f) = verbose f ∧
  messages ERROR (error msg f) = messages ERROR f ++ (if verbose f then [msg] else []) ∧
  messages WARNING (error msg f) = messages WARNING f.
Proof.
  unfold error. destruct (verbose f) eqn:Hv; simpl; rewrite ?Hv.
  - repeat split; unfold messages; simpl; rewrite filter_app, fmap_app;
      rewrite filter_cons; simpl; [reflexivity | apply app_nil_r].
  - repeat split; unfold messages; simpl; symmetry; apply app_nil_r.
Qed.

Lemma warning_spec msg f :
  errors (warning msg f) = errors f ∧ warnings (warning msg f) = S (warnings f) ∧
  verbose (warning msg f) = verbose f ∧
  messages ERROR (warning msg f) = messages ERROR f ∧
  messages WARNING (warning msg f) = messages WARNING f ++ (if verbose f then [msg] else []).
Proof.
  unfold warning. destruct (verbose f) eqn:Hv; simpl; rewrite ?Hv.
  - repeat split; unfold messages; simpl; rewrite filter_app, fmap_app;
      rewrite filter_cons; simpl; [apply app_nil_r | reflexivity].
  - repeat split; unfold messages; simpl; symmetry; apply app_nil_r.
Qed.

Lemma same_errors_refl f : same_errors f f.
Proof. by repeat split. Qed.

Lemma same_errors_warning msg f : same_errors f (warning msg f).
Proof. destruct (warning_spec msg f) as (? & ? & ? & ? & ?). by repeat split. Qed.

Lemma same_errors_trans f g h : same_errors f g → same_errors g h → same_errors f h.
Proof. intros (? & ? & ?) (? & ? & ?). repeat split; congruence. Qed.

(** ** The pass over the file being checked *)

Section PinPass.
Context `{Utils}.
Implicit Types (existing_pins : gmap string InstallRequirement) (f : ErrorCounter).

Lemma note_unpinned_same ireq f : same_errors f (note_unpinned ireq f).
Proof.
  unfold note_unpinned.
  destruct (_ && _); [apply same_errors_warning | apply same_errors_refl].
Qed.

Lemma pin_step_skipped existing_pins f ireq :
  reaches_key ireq = false → pin_step (existing_pins, f) ireq = (existing_pins, f).
Proof.
  unfold reaches_key, pin_step. intros Hk.
  apply orb_false_iff in Hk as [-> Hr]. apply bool_decide_eq_false in Hr.
  destruct (req ireq); [exfalso; apply Hr; eauto | reflexivity].
Qed.

(** A record that gets past line 180 is stored under its key; before that
    only warnings are issued, and then the duplicate check runs against the
    map as it was. *)
Lemma pin_step_registered existing_pins f ireq :
  reaches_key ireq = true →
  ∃ f', same_errors f f' ∧
    pin_step (existing_pins, f) ireq =
      (<[key_from_ireq ireq := ireq]> existing_pins, note_duplicate existing_pins ireq f').
Proof.
  unfold reaches_key, pin_step, register. intros Hk.
  destruct (editable ireq); simpl in Hk.
  - eexists; split; [| reflexivity].
    eapply same_errors_trans; [| apply note_unpinned_same].
    destruct (truthy _); [apply same_errors_warning | apply same_errors_refl].
  - apply bool_decide_eq_true in Hk as [r Hr]. rewrite Hr.
    eexists; split; [apply note_unpinned_same | reflexivity].
Qed.

Lemma pin_step_pins existing_pins f ireq :
  (pin_step (existing_pins, f) ireq).1 =
    if reaches_key ireq then <[key_from_ireq ireq := ireq]> existing_pins else existing_pins.
Proof.
  destruct (reaches_key ireq) eqn:Hk.
  - destruct (pin_step_registered existing_pins f ireq Hk) as (f' & _ & ->). reflexivity.
  - by rewrite pin_step_skipped.
Qed.

(** Last write wins: after the pass, a key holds the last record read for
    it, or what the map held before when no record has that key. *)
Lemma foldl_pin_step_lookup ireqs existing_pins f key :
  (foldl pin_step (existing_pins, f) ireqs).1 !! key =
    match last_read key ireqs with
    | Some ireq => Some ireq
    | None => existing_pins !! key
    end.
Proof.
  induction ireqs as [| ireq ireqs IH] using rev_ind; [reflexivity |].
  rewrite foldl_app; simpl.
  destruct (foldl pin_step (existing_pins, f) ireqs) as [pins f'] eqn:Hfold.
  rewrite pin_step_pins. simpl in IH.
  unfold last_read in *. rewrite filter_app, filter_cons, filter_nil.
  destruct (reaches_key ireq) eqn:Hk.
  - destruct (decide (key_from_ireq ireq = key)) as [<- | Hne].
    + rewrite decide_True by done. rewrite last_snoc. apply lookup_insert_eq.
    + rewrite decide_False by (intros [_ ?]; done).
      rewrite app_nil_r, lookup_insert_ne by done. exact IH.
  - rewrite decide_False by (intros [? _]; done).
    rewrite app_nil_r. exact IH.
Qed.

Lemma collect_pins_lookup ireqs f key :
  (collect_pins ireqs f).1 !! key = last_read key ireqs.
Proof.
  unfold collect_pins. rewrite foldl_pin_step_lookup, lookup_empty.
  by destruct (last_read key ireqs).
Qed.

(** C4: when the key of the record being read is already in the map, the
    step counts exactly one error, whose message is
    "<requirement> is a duplicate of <previous>" with the record stored
    before, and overwrites the entry with the record being read; so that
    after the pass every key holds the last record read for it. *)
Theorem duplicate_error_last_write_wins existing_pins f ireq previous :
  reaches_key ireq = true →
  existing_pins !! key_from_ireq ireq = Some previous →
  let st := pin_step (existing_pins, f) ireq in
  st.1 = <[key_from_ireq ireq := ireq]> existing_pins ∧
  st.1 !! key_from_ireq ireq = Some ireq ∧
  errors st.2 = S (errors f) ∧
  messages ERROR st.2 =
    messages ERROR f ++ (if verbose f then [duplicate_msg ireq previous] else []) ∧
  (∀ ireqs f0 key, (collect_pins ireqs f0).1 !! key = last_read key ireqs).
Proof.
  intros Hk Hprev st. subst st.
  destruct (pin_step_registered existing_pins f ireq Hk) as (f' & (He & Hv & Hm) & ->).
  simpl. unfold note_duplicate. rewrite Hprev.
  destruct (error_spec (duplicate_msg ireq previous) f') as (He' & _ & _ & Hm' & _).
  rewrite He', Hm', He, Hv, Hm.
  repeat split; [apply lookup_insert_eq | apply collect_pins_lookup].
Qed.

Lemma foldl_pin_step_size ireqs existing_pins f :
  let pins := (foldl pin_step (existing_pins, f) ireqs).1 in
  size pins ≤ size existing_pins + length ireqs ∧
  (size pins = size existing_pins + length ireqs ↔
     NoDup (key_from_ireq <$> ireqs) ∧
     Forall (λ r, reaches_key r = true) ireqs ∧
     Forall (λ r, existing_pins !! key_from_ireq r = None) ireqs).
Proof.
  revert existing_pins f.
  induction ireqs as [| ireq ireqs IH]; intros existing_pins f.
  - simpl. split; [lia |]. split; [intros _ | lia].
    repeat split; constructor.
  - cbn [foldl]. rewrite fmap_cons. simpl length.
    destruct (pin_step (existing_pins, f) ireq) as [pins' f'] eqn:Hstep.
    pose proof (pin_step_pins existing_pins f ireq) as Hpins.
    rewrite Hstep in Hpins; simpl in Hpins.
    destruct (IH pins' f') as [Hle Hiff]. clear IH.
    rewrite NoDup_cons, !Forall_cons.
    destruct (reaches_key ireq) eqn:Hk; subst pins'.
    + destruct (existing_pins !! key_from_ireq ireq) as [previous |] eqn:Hprev.
      * rewrite map_size_insert_Some in Hle, Hiff by eauto.
        split; [lia |]. split; [intros ?; exfalso; lia | naive_solver].
      * rewrite map_size_insert_None in Hle, Hiff by done.
        split; [lia |].
        replace (size existing_pins + S (length ireqs))
          with (S (size existing_pins) + length ireqs) by lia.
        rewrite Hiff. rewrite !Forall_forall, list_elem_of_fmap.
        setoid_rewrite lookup_insert_None. naive_solver.
    + split; [lia |]. split; [intros ?; exfalso; lia | naive_solver].
Qed.

(** C9 (as amended): the map has at most as many entries as the file has
    records, and exactly as many if and only if no key repeats and no
    record is passed over, that is, every record is editable or carries a
    parsed requirement. *)
Theorem pins_size_le_length ireqs f :
  size (collect_pins ireqs f).1 ≤ length ireqs ∧
  (size (collect_pins ireqs f).1 = length ireqs ↔
     NoDup (key_from_ireq <$> ireqs) ∧ Forall (λ r, reaches_key r = true) ireqs).
Proof.
  destruct (foldl_pin_step_size ireqs ∅ f) as [Hle Hiff].
  unfold collect_pins. rewrite map_size_empty in Hle, Hiff. simpl in Hle, Hiff.
  split; [exact Hle |]. rewrite Hiff.
  split; [naive_solver |]. intros [? ?]. repeat split; [done .. |].
  apply Forall_forall. intros; apply lookup_empty.
Qed.

(** A record that gets past line 180 changes the state: the map gets an
    entry, or a duplicate is counted. *)
Lemma pin_step_registered_changes existing_pins f ireq :
  reaches_key ireq = true → pin_step (existing_pins, f) ireq ≠ (existing_pins, f).
Proof.
  intros Hk Heq.
  destruct (pin_step_registered existing_pins f ireq Hk) as (f' & (He & _) & Hstep).
  rewrite Hstep in Heq. injection Heq as Hpins Hf.
  unfold note_duplicate in Hf.
  destruct (existing_pins !! key_from_ireq ireq) as [previous |] eqn:Hprev.
  - destruct (error_spec (duplicate_msg ireq previous) f') as [Herr _].
    rewrite Hf in Herr. lia.
  - apply (f_equal (λ m, m !! key_from_ireq ireq)) in Hpins.
    rewrite lookup_insert_eq, Hprev in Hpins. discriminate.
Qed.

(** C8 (as amended): an editable record without a name gets no "is
    editable" warning, but it is not passed over: it is stored under its
    key, after the unpinned check and the duplicate check that every stored
    record goes through.  When it is URL-based and its key is new, nothing
    is reported for it.  The records that leave the state as it was are the
    non-editable records without a parsed requirement, and no others. *)
Theorem nameless_editable_is_stored existing_pins f ireq :
  editable ireq = true →
  truthy (name ireq) = false →
  let st := pin_step (existing_pins, f) ireq in
  st = (<[key_from_ireq ireq := ireq]> existing_pins,
        note_duplicate existing_pins ireq (note_unpinned ireq f)) ∧
  st.1 !! key_from_ireq ireq = Some ireq ∧
  (is_url_requirement ireq = true → existing_pins !! key_from_ireq ireq = None →
   st.2 = f) ∧
  st ≠ (existing_pins, f) ∧
  (∀ pins g other,
     pin_step (pins, g) other = (pins, g) ↔ editable other = false ∧ req other = None).
Proof.
  intros He Hn st. subst st.
  assert (Hstep : pin_step (existing_pins, f) ireq =
                    (<[key_from_ireq ireq := ireq]> existing_pins,
                     note_duplicate existing_pins ireq (note_unpinned ireq f))).
  { unfold pin_step. rewrite He, Hn. reflexivity. }
  split; [exact Hstep |].
  split; [rewrite Hstep; apply lookup_insert_eq |].
  split.
  { intros Hurl Hnew. rewrite Hstep. simpl. unfold note_duplicate, note_unpinned.
    rewrite Hnew, Hurl, andb_false_r. reflexivity. }
  split.
  { apply pin_step_registered_changes. unfold reaches_key. by rewrite He. }
  intros pins g other. split.
  - intros Hsame. destruct (reaches_key other) eqn:Hk.
    + by apply pin_step_registered_changes in Hsame.
    + unfold reaches_key in Hk. apply orb_false_iff in Hk as [Hed Hreq].
      split; [exact Hed |]. apply bool_decide_eq_false in Hreq.
      destruct (req other); [exfalso; apply Hreq; eauto | reflexivity].
  - intros [Hed Hreq]. apply pin_step_skipped. unfold reaches_key.
    by rewrite Hed, Hreq.
Qed.

End PinPass.

(** ** The pass over the source requirements *)

Section SourcePass.
Context `{Utils} `{Packaging}.
Implicit Types (existing_pins : gmap string InstallRequirement) (f : ErrorCounter).

(** A constraint-only record whose key is not in the map gets past the
    test of line 230, and the lookup of line 233 raises. *)
Lemma check_step_constraint_absent existing_pins f ireq :
  constraint ireq = true →
  existing_pins !! key_from_ireq ireq = None →
  check_step existing_pins ireq f = Raised (KeyError (key_from_ireq ireq)) f.
Proof.
  intros Hc Hk. unfold check_step, bind, getitem. rewrite Hc, Hk. reflexivity.
Qed.

(** With a record that has clauses and a pin that has none, line 235
    raises. *)
Lemma check_step_pin_without_clause existing_pins f ireq pin r :
  existing_pins !! key_from_ireq ireq = Some pin →
  has_specifier ireq = true →
  req pin = Some r → req_specifier r = [] →
  check_step existing_pins ireq f = Raised StopIteration f.
Proof.
  intros Hk Hs Hr Hnil.
  assert (Hv : first_version pin f = Raised StopIteration f).
  { unfold first_version, specifier, bind. rewrite Hr; simpl. by rewrite Hnil. }
  unfold check_step, bind, getitem.
  rewrite Hk, Hs, bool_decide_eq_false_2, andb_false_r by done.
  simpl. by rewrite Hv.
Qed.

(** C5: for a record that is not constraint-only and whose key is not in
    the map, the step is one call of [failures.error] with "missing
    requirement <source requirement>" and nothing else: one error more, no
    warning, no exception, whatever the record's specifier; the loop goes
    on with the next record. *)
Theorem missing_requirement_error existing_pins f ireq :
  constraint ireq = false →
  existing_pins !! key_from_ireq ireq = None →
  let f' := error (missing_msg ireq) f in
  check_step existing_pins ireq f = Done tt f' ∧
  errors f' = S (errors f) ∧ warnings f' = warnings f ∧
  messages ERROR f' = messages ERROR f ++ (if verbose f then [missing_msg ireq] else []) ∧
  (∀ rest, for_each (check_step existing_pins) (ireq :: rest) f =
           for_each (check_step existing_pins) rest f').
Proof.
  intros Hc Hk f'.
  assert (Hstep : check_step existing_pins ireq f = Done tt f').
  { unfold check_step. rewrite Hc, Hk, bool_decide_eq_true_2 by done. reflexivity. }
  destruct (error_spec (missing_msg ireq) f) as (He & Hw & _ & Hm & _).
  repeat split; try done.
  intros rest. simpl. unfold bind. rewrite Hstep. reflexivity.
Qed.

(** X17: for a record with a non-empty specifier whose key is in the map
    and whose pin has a clause,
    the version of the first clause of the pin is tested against the
    record's specifier; when it does not satisfy it the step is exactly one
    call of [failures.error], with "incompatible requirements found, <pin>
    violates constraint <source requirement>"; when it does, nothing is
    reported. *)
Theorem incompatible_requirement_error existing_pins f ireq r pin rp op version more :
  req ireq = Some r → req_specifier r ≠ [] →
  existing_pins !! key_from_ireq ireq = Some pin →
  req pin = Some rp → req_specifier rp = (op, version) :: more →
  let f' := error (incompatible_msg pin ireq) f in
  first_version pin f = Done version f ∧
  check_step existing_pins ireq f =
    Done tt (if contains (req_specifier r) version then f else f') ∧
  errors f' = S (errors f) ∧ warnings f' = warnings f ∧
  messages ERROR f' =
    messages ERROR f ++ (if verbose f then [incompatible_msg pin ireq] else []).
Proof.
  intros Hr Hne Hk Hrp Hspecs f'.
  assert (Hs : has_specifier ireq = true).
  { unfold has_specifier. rewrite Hr. by destruct (req_specifier r). }
  assert (Hv : first_version pin f = Done version f).
  { unfold first_version, specifier, bind. rewrite Hrp; simpl. by rewrite Hspecs. }
  split; [exact Hv |]. split.
  - unfold check_step, bind, getitem.
    rewrite Hk, Hs, bool_decide_eq_false_2, andb_false_r by done.
    simpl. rewrite Hv. unfold specifier. rewrite Hr; simpl.
    by destruct (contains _ _).
  - destruct (error_spec (incompatible_msg pin ireq) f) as (He & Hw & _ & Hm & _).
    by repeat split.
Qed.

(** What a step can do to the counter: nothing, or one call of
    [failures.error]. *)
Lemma check_step_counter existing_pins ireq f :
  counter_of (check_step existing_pins ireq f) = f ∨
  ∃ msg, check_step existing_pins ireq f = Done tt (error msg f).
Proof.
  unfold check_step, bind, getitem, first_version, specifier, bind.
  destruct (negb (constraint ireq) && _); [right; eauto |].
  destruct (existing_pins !! _) as [pin |]; simpl; [| by left].
  destruct (has_specifier ireq); [| by left].
  destruct (req pin) as [rp |]; simpl; [| by left].
  destruct (req_specifier rp) as [| [op version] more]; simpl; [by left |].
  destruct (req ireq) as [r |]; simpl; [| by left].
  destruct (negb (contains _ _)); [right; eauto | by left].
Qed.

Lemma same_warnings_error msg f : same_warnings f (error msg f).
Proof. destruct (error_spec msg f) as (_ & ? & _ & _ & ?). by split. Qed.

(** The pass over the source requirements issues no warning. *)
Lemma for_each_check_step_warnings existing_pins constraints f :
  same_warnings f (counter_of (for_each (check_step existing_pins) constraints f)).
Proof.
  revert f. induction constraints as [| ireq constraints IH]; intros f; [by split |].
  simpl. unfold bind.
  destruct (check_step_counter existing_pins ireq f) as [Hsame | [msg Hstep]].
  - destruct (check_step existing_pins ireq f) as [[] f' | e f']; simpl in Hsame; subst f'.
    + apply IH.
    + by split.
  - rewrite Hstep. destruct (IH (error msg f)) as [Hw Hm].
    destruct (same_warnings_error msg f) as [Hw' Hm']. split; congruence.
Qed.

(** [cli] is the two passes followed by the report. *)
Lemma cli_checks quiet req_file ccc ireqs sources :
  cli quiet req_file ccc ireqs sources =
    match checks quiet ireqs sources with
    | Done _ f => report req_file ccc f
    | Raised e f => Raised e f
    end.
Proof.
  unfold cli, checks, collect_sources, bind.
  destruct (collect_pins ireqs (new_counter quiet)) as [existing_pins failures]. simpl.
  by destruct (for_each _ _ _).
Qed.

(** The report ends the run with status 1 when errors were counted and 0
    otherwise; it counts nothing and sends the logger no warning. *)
Lemma report_spec req_file ccc f :
  ∃ f', report req_file ccc f = Done (if errors f =? 0 then 0%Z else 1%Z) f' ∧
        errors f' = errors f ∧ same_warnings f f'.
Proof.
  unfold report, same_warnings.
  destruct (any_failure f) eqn:Hany; simpl.
  - destruct (errors f =? 0); simpl; eexists; (split; [reflexivity |]);
      rewrite !messages_log_to; simpl; by rewrite !app_nil_r.
  - unfold any_failure in Hany. apply orb_false_iff in Hany as [He _].
    apply negb_false_iff in He. rewrite He.
    eexists; split; [reflexivity |]. rewrite messages_log_to; simpl.
    by rewrite app_nil_r.
Qed.

(** Whatever the sources are, the warnings of a run are those of the pass
    over the file being checked: nothing after it issues one. *)
Lemma cli_warnings quiet req_file ccc ireqs sources :
  same_warnings (collect_pins ireqs (new_counter quiet)).2
    (counter_of (cli quiet req_file ccc ireqs sources)).
Proof.
  rewrite cli_checks. unfold checks.
  pose proof (for_each_check_step_warnings
    (collect_pins ireqs (new_counter quiet)).1 (collect_sources sources).2
    (collect_pins ireqs (new_counter quiet)).2) as [Hw Hm].
  destruct (for_each _ _ _) as [[] f | e f]; simpl in *; [| by split].
  destruct (report_spec req_file ccc f) as (f' & -> & _ & Hw' & Hm'). simpl.
  split; congruence.
Qed.

(** C7: a run whose two passes complete ends with exit status 1 when the
    error count is positive and 0 otherwise, in particular 0 when there are
    only warnings; the report itself changes neither count.  A run in which
    a pass raises ends with that exception. *)
Theorem exit_status_reflects_errors quiet req_file ccc ireqs sources :
  match checks quiet ireqs sources with
  | Done _ f =>
      ∃ f', cli quiet req_file ccc ireqs sources =
              Done (if errors f =? 0 then 0%Z else 1%Z) f' ∧
            errors f' = errors f ∧ warnings f' = warnings f
  | Raised e f => cli quiet req_file ccc ireqs sources = Raised e f
  end.
Proof.
  rewrite cli_checks. destruct (checks quiet ireqs sources) as [[] f | e f]; [| done].
  destruct (report_spec req_file ccc f) as (f' & Hr & He & Hw & _). eauto.
Qed.

(** C6: a source record whose marker is present and evaluates to false is
    not in the list that the loop runs over; the run is the same as if the
    record were not in its file, so the record is never reported missing,
    whatever the map holds (alone, it makes the loop report nothing).  The
    set of primary keys is built from the records of all files before any
    is dropped, so the key of the record is in it when the record is not
    constraint-only. *)
Theorem excluded_record_is_dropped sources1 before ireq after sources2 m :
  markers ireq = Some m →
  evaluate m = false →
  let sources := sources1 ++ (before ++ ireq :: after) :: sources2 in
  let sources' := sources1 ++ (before ++ after) :: sources2 in
  (ireq ∉ (collect_sources sources).2) ∧
  (collect_sources sources).2 = (collect_sources sources').2 ∧
  (∀ quiet req_file ccc ireqs,
     cli quiet req_file ccc ireqs sources = cli quiet req_file ccc ireqs sources') ∧
  (∀ existing_pins f,
     for_each (check_step existing_pins) (collect_sources [[ireq]]).2 f = Done tt f) ∧
  (collect_sources sources).1 = primary_packages (concat sources) ∧
  (constraint ireq = false → key_from_ireq ireq ∈ (collect_sources sources).1).
Proof.
  intros Hm He sources sources'.
  assert (Hdrop : marker_holds ireq ≠ true).
  { unfold marker_holds. rewrite Hm, He. done. }
  assert (Heq : (collect_sources sources).2 = (collect_sources sources').2).
  { unfold collect_sources, sources, sources'; simpl.
    rewrite !concat_app, !concat_cons, !filter_app, filter_cons.
    by rewrite decide_False. }
  split; [| split; [exact Heq | split; [| split; [| split]]]].
  - unfold collect_sources; simpl. rewrite list_elem_of_filter. tauto.
  - intros quiet req_file ccc ireqs. rewrite !cli_checks. unfold checks. by rewrite Heq.
  - intros existing_pins f. unfold collect_sources; simpl.
    rewrite ?app_nil_r, filter_cons, decide_False by done. reflexivity.
  - reflexivity.
  - intros Hc. unfold collect_sources, primary_packages, sources; simpl.
    rewrite elem_of_list_to_set, list_elem_of_fmap. exists ireq. split; [done |].
    rewrite list_elem_of_filter. split; [done |].
    rewrite concat_app, concat_cons. set_solver.
Qed.

End SourcePass.

(** * The examples of the specification, on concrete files *)

Section Examples.
Import Sample.
#[local] Existing Instance SpecModel.utils.
#[local] Existing Instance Sample.packaging.

(** The file [six==1.9.0], [six==1.10.0]: the second line is reported as a
    duplicate of the first and is the pin that remains. *)
Lemma duplicate_error_last_write_wins_witness :
  let st := collect_pins [six_1_9_0; six_1_10_0] (new_counter 0) in
  st.1 !! "six" = Some six_1_10_0 ∧
  errors st.2 = 1 ∧
  messages ERROR st.2 = ["six==1.10.0 is a duplicate of six==1.9.0"].
Proof.
  destruct (duplicate_error_last_write_wins
              (collect_pins [six_1_9_0] (new_counter 0)).1
              (collect_pins [six_1_9_0] (new_counter 0)).2
              six_1_10_0 six_1_9_0)
    as (_ & Hpin & Herr & Hmsg & _);
    [vm_compute; reflexivity | vm_compute; reflexivity |].
  split; [exact Hpin | split; [exact Herr | exact Hmsg]].
Defined.

(** Sources [django], [six] against the file [six==1.10.0]: [django] is
    reported missing, and the run ends with status 1. *)
Lemma missing_requirement_error_witness :
  let existing_pins := (collect_pins [six_1_10_0] (new_counter 0)).1 in
  constraint django_any = false ∧
  existing_pins !! key_from_ireq django_any = None ∧
  check_step existing_pins django_any (new_counter 0) =
    Done tt {| errors := 1; warnings := 0; verbose := true;
               logger := [(ERROR, "missing requirement django from requirements.in (line 1)")] |} ∧
  for_each (check_step existing_pins) [django_any; six_second] (new_counter 0) =
    for_each (check_step existing_pins) [six_second] (error (missing_msg django_any) (new_counter 0)).
Proof.
  intros existing_pins.
  destruct (missing_requirement_error existing_pins (new_counter 0) django_any)
    as (Hstep & _ & _ & _ & Hnext);
    [vm_compute; reflexivity | vm_compute; reflexivity |].
  split; [reflexivity |]. split; [vm_compute; reflexivity |].
  split; [exact Hstep | exact (Hnext [six_second])].
Defined.

(** Source [six==1.10.0] against the file [six==1.9.0]. *)
Lemma incompatible_requirement_error_witness :
  let existing_pins := (collect_pins [six_1_9_0] (new_counter 0)).1 in
  existing_pins !! key_from_ireq six_exactly_1_10_0 = Some six_1_9_0 ∧
  first_version six_1_9_0 (new_counter 0) = Done "1.9.0" (new_counter 0) ∧
  contains [("==", "1.10.0")] "1.9.0" = false ∧
  check_step existing_pins six_exactly_1_10_0 (new_counter 0) =
    Done tt {| errors := 1; warnings := 0; verbose := true;
               logger := [(ERROR, "incompatible requirements found, six==1.9.0 violates constraint six==1.10.0 from requirements.in (line 1)")] |} ∧
  String.prefix
    "incompatible requirements found, six==1.9.0 violates constraint six==1.10.0"
    (incompatible_msg six_1_9_0 six_exactly_1_10_0) = true.
Proof.
  intros existing_pins.
  destruct (incompatible_requirement_error existing_pins (new_counter 0)
              six_exactly_1_10_0 {| req_name := "six"; req_specifier := [("==", "1.10.0")] |}
              six_1_9_0 {| req_name := "six"; req_specifier := [("==", "1.9.0")] |}
              "==" "1.9.0" [])
    as (Hversion & Hstep & _);
    [reflexivity | discriminate | vm_compute; reflexivity | reflexivity | reflexivity |].
  split; [vm_compute; reflexivity |]. split; [exact Hversion |].
  split; [reflexivity |]. split; [exact Hstep | reflexivity].
Defined.

(** A requirement for Windows only, on the Linux host of the examples: it
    is dropped, the run is that of the file without it, and its key is among
    the primary ones all the same. *)
Lemma excluded_record_is_dropped_witness :
  markers pywin32_on_windows = Some "sys_platform == 'win32'" ∧
  evaluate "sys_platform == 'win32'" = false ∧
  (collect_pins [six_1_9_0] (new_counter 0)).1 !! key_from_ireq pywin32_on_windows = None ∧
  run [six_1_9_0] [[pywin32_on_windows; six_second]] = run [six_1_9_0] [[six_second]] ∧
  errors (counter_of (run [six_1_9_0] [[pywin32_on_windows; six_second]])) = 0 ∧
  key_from_ireq pywin32_on_windows ∈ (collect_sources [[pywin32_on_windows; six_second]]).1.
Proof.
  destruct (excluded_record_is_dropped [] [] pywin32_on_windows [six_second] []
              "sys_platform == 'win32'")
    as (_ & _ & Hrun & _ & _ & Hprimary); [reflexivity | reflexivity |].
  split; [reflexivity |]. split; [reflexivity |]. split; [vm_compute; reflexivity |].
  split; [exact (Hrun 0 "requirements.txt" None [six_1_9_0]) |].
  split; [vm_compute; reflexivity | exact (Hprimary eq_refl)].
Defined.

(** The file [six]: one warning, no error, exit status 0. *)
Lemma exit_status_reflects_errors_witness :
  ∃ f', run [six_unpinned] [[]] = Done 0%Z f' ∧ errors f' = 0 ∧ warnings f' = 1.
Proof.
  exact (exit_status_reflects_errors 0 "requirements.txt" None [six_unpinned] [[]]).
Defined.

(** The file [-e ./pkg]: the record is stored, and nothing is reported. *)
Lemma nameless_editable_is_stored_witness :
  editable local_pkg = true ∧ truthy (name local_pkg) = false ∧
  (pin_step (∅, new_counter 0) local_pkg).1 !! key_from_ireq local_pkg = Some local_pkg ∧
  (pin_step (∅, new_counter 0) local_pkg).2 = new_counter 0.
Proof.
  destruct (nameless_editable_is_stored ∅ (new_counter 0) local_pkg)
    as (_ & Hstored & Hquiet & _); [reflexivity | reflexivity |].
  split; [reflexivity |]. split; [reflexivity |].
  split; [exact Hstored | exact (Hquiet eq_refl eq_refl)].
Defined.

(** C8, as written, fails for the file [-e ./pkg]: the step does not leave
    the state as it was, the map has an entry more. *)
Lemma nameless_editable_changes_state :
  editable local_pkg = true ∧ name local_pkg = None ∧
  pin_step (∅, new_counter 0) local_pkg ≠ (∅, new_counter 0) ∧
  size (pin_step (∅, new_counter 0) local_pkg).1 = 1.
Proof.
  split; [reflexivity |]. split; [reflexivity |]. split; [| reflexivity].
  intros Heq. apply (f_equal (λ st, size st.1)) in Heq. vm_compute in Heq. discriminate.
Qed.

(** C9, as written, fails for the file [-e ./pkg]: the map has as many
    entries as the file has records, and the record has no name. *)
Lemma size_equal_without_name :
  ¬ (size (collect_pins [local_pkg] (new_counter 0)).1 = length [local_pkg] ↔
       NoDup (key_from_ireq <$> [local_pkg]) ∧ Forall (λ r, is_Some (name r)) [local_pkg]).
Proof.
  intros [Hname _]. destruct Hname as [_ Hname]; [reflexivity |].
  apply Forall_cons in Hname as [[n Hn] _]. discriminate.
Qed.

(** C1: the file [gnureadline==6.6.3], [six==1.9.0] with the source [six].
    [gnureadline] is in the map and not among the primary keys, and the run
    reports nothing about it: no warning is counted and the logger gets the
    summary only. *)
Theorem orphan_is_not_reported :
  is_Some ((collect_pins [gnureadline_6_6_3; six_1_9_0_second] (new_counter 0)).1 !! "gnureadline") ∧
  ("gnureadline" ∉ (collect_sources [[six_any]]).1) ∧
  run [gnureadline_6_6_3; six_1_9_0_second] [[six_any]] =
    Done 0%Z {| errors := 0; warnings := 0; verbose := true;
                logger := [(DEBUG, "pip-check found 0 errors and 0 warnings in requirements.txt")] |}.
Proof.
  split; [vm_compute; eauto |]. split; [| vm_compute; reflexivity].
  unfold collect_sources, primary_packages; simpl. set_solver.
Qed.

(** C2: an empty file with the constraint [six>=1.10.0] as only source:
    the record is constraint-only, its key is not in the map, and the run
    ends with [KeyError]. *)
Theorem constraint_without_pin_raises :
  constraint six_constraint = true ∧
  (collect_pins [] (new_counter 0)).1 !! key_from_ireq six_constraint = None ∧
  run [] [[six_constraint]] = Raised (KeyError "six") (new_counter 0).
Proof. split; [reflexivity |]. split; vm_compute; reflexivity. Qed.

(** C10: the file [six] with the source [six>=1.0]: the pin was stored with
    an "is unpinned" warning, the loop reaches the extraction of the
    version, the pin has no clause, and the run ends with
    [StopIteration]. *)
Theorem unpinned_pin_has_no_clause :
  (collect_pins [six_unpinned] (new_counter 0)).1 !! key_from_ireq six_at_least_1_0
    = Some six_unpinned ∧
  messages WARNING (collect_pins [six_unpinned] (new_counter 0)).2 = ["six is unpinned"] ∧
  has_specifier six_at_least_1_0 = true ∧
  specifier six_unpinned (new_counter 0) = Done [] (new_counter 0) ∧
  run [six_unpinned] [[six_at_least_1_0]] =
    Raised StopIteration
      {| errors := 0; warnings := 1; verbose := true;
         logger := [(WARNING, "six is unpinned")] |}.
Proof. repeat split; vm_compute; reflexivity. Qed.

(** C3: the file [six] with the source [six>=1.0].  The source record has a
    clause and its key is in the map, but the pin has none: no version is
    extracted from it and the specifier of the record is tested against
    nothing; the step raises [StopIteration], and the run ends without any
    error counted or logged. *)
Theorem no_version_to_test_for_unpinned_pin :
  let existing_pins := (collect_pins [six_unpinned] (new_counter 0)).1 in
  let f := (collect_pins [six_unpinned] (new_counter 0)).2 in
  has_specifier six_at_least_1_0 = true ∧
  existing_pins !! key_from_ireq six_at_least_1_0 = Some six_unpinned ∧
  first_version six_unpinned f = Raised StopIteration f ∧
  check_step existing_pins six_at_least_1_0 f = Raised StopIteration f ∧
  errors (counter_of (run [six_unpinned] [[six_at_least_1_0]])) = 0 ∧
  messages ERROR (counter_of (run [six_unpinned] [[six_at_least_1_0]])) = [].
Proof. repeat split; vm_compute; reflexivity. Qed.

End Examples.

(** * Further properties of the code *)

(** ** The counter *)

Lemma adds_refl lv f : adds lv [] f f.
Proof.
  unfold adds. rewrite Nat.add_0_r. destruct (verbose f); by rewrite app_nil_r.
Qed.

Lemma adds_trans lv ms ms' f g h :
  adds lv ms f g → adds lv ms' g h → adds lv (ms ++ ms') f h.
Proof.
  intros (Hv & Hc & Hm) (Hv' & Hc' & Hm'). unfold adds.
  rewrite Hv', Hc', Hm', Hv, Hc, Hm, length_app.
  split; [done |]. split; [lia |].
  destruct (verbose f); by rewrite <- ?app_assoc, ?app_nil_r.
Qed.

Lemma adds_error msg f : adds ERROR [msg] f (error msg f) ∧ adds WARNING [] f (error msg f).
Proof.
  destruct (error_spec msg f) as (He & Hw & Hv & Hme & Hmw).
  split; unfold adds, count; rewrite ?He, ?Hw, Hv, ?Hme, ?Hmw;
    (split; [done |]); (split; [simpl; lia |]); [done |].
  destruct (verbose f); by rewrite app_nil_r.
Qed.

Lemma adds_warning msg f :
  adds WARNING [msg] f (warning msg f) ∧ adds ERROR [] f (warning msg f).
Proof.
  destruct (warning_spec msg f) as (He & Hw & Hv & Hme & Hmw).
  split; unfold adds, count; rewrite ?He, ?Hw, Hv, ?Hme, ?Hmw;
    (split; [done |]); (split; [simpl; lia |]); [done |].
  destruct (verbose f); by rewrite app_nil_r.
Qed.

Lemma adds_log_to lv lv' msg ms f g :
  lv' ≠ lv → adds lv ms f g → adds lv ms f (log_to lv' msg g).
Proof.
  intros Hne (Hv & Hc & Hm). unfold adds.
  rewrite messages_log_to, Hm, decide_False, app_nil_r by done.
  repeat split; [done |]. rewrite <- Hc. by destruct lv.
Qed.

(** ** The pass over the file being checked *)

Section PinPassMore.
Context `{Utils}.
Implicit Types (existing_pins : gmap string InstallRequirement) (f : ErrorCounter).

(** The counter after one iteration, call by call. *)
Lemma pin_step_counter existing_pins f ireq :
  (pin_step (existing_pins, f) ireq).2 =
    let f1 := if editable ireq && truthy (name ireq)
              then warning (editable_msg ireq) f else f in
    if reaches_key ireq then note_duplicate existing_pins ireq (note_unpinned ireq f1)
    else f1.
Proof.
  unfold pin_step, register, reaches_key.
  destruct (editable ireq), (truthy (name ireq)), (req ireq); reflexivity.
Qed.

Lemma pin_step_adds_warnings existing_pins f ireq :
  adds WARNING (pin_warnings ireq) f (pin_step (existing_pins, f) ireq).2.
Proof.
  rewrite pin_step_counter. unfold pin_warnings. cbv zeta.
  remember (if editable ireq && truthy (name ireq)
            then warning (editable_msg ireq) f else f) as f1 eqn:Hf1.
  apply (adds_trans _ _ _ _ f1).
  { subst f1. destruct (editable ireq && truthy (name ireq));
      [apply (proj1 (adds_warning _ _)) | apply adds_refl]. }
  destruct (reaches_key ireq); simpl; [| apply adds_refl].
  match goal with |- adds _ ?ms _ _ => rewrite <- (app_nil_r ms) end.
  apply (adds_trans _ _ _ _ (note_unpinned ireq f1)).
  - unfold note_unpinned.
    destruct (negb (is_pinned_requirement ireq) && negb (is_url_requirement ireq));
      [apply (proj1 (adds_warning _ _)) | apply adds_refl].
  - unfold note_duplicate. destruct (existing_pins !! key_from_ireq ireq);
      [apply (proj2 (adds_error _ _)) | apply adds_refl].
Qed.

Lemma foldl_pin_step_adds_warnings ireqs existing_pins f :
  adds WARNING (concat (pin_warnings <$> ireqs)) f
    (foldl pin_step (existing_pins, f) ireqs).2.
Proof.
  revert existing_pins f. induction ireqs as [| ireq ireqs IH]; intros existing_pins f.
  - apply adds_refl.
  - cbn [foldl]. rewrite fmap_cons, concat_cons.
    pose proof (pin_step_adds_warnings existing_pins f ireq) as Hstep.
    destruct (pin_step (existing_pins, f) ireq) as [pins' f'].
    eapply adds_trans; [exact Hstep | apply IH].
Qed.

Lemma pin_step_errors_size existing_pins f ireq :
  errors (pin_step (existing_pins, f) ireq).2 + size (pin_step (existing_pins, f) ireq).1 =
    errors f + size existing_pins + (if reaches_key ireq then 1 else 0).
Proof.
  rewrite pin_step_counter, pin_step_pins. cbv zeta.
  set (f1 := if _ && _ then _ else f).
  assert (H1 : errors f1 = errors f).
  { subst f1. destruct (_ && _); [| done]. by destruct (warning_spec (editable_msg ireq) f). }
  destruct (reaches_key ireq); [| lia].
  assert (H2 : errors (note_unpinned ireq f1) = errors f1) by apply note_unpinned_same.
  unfold note_duplicate.
  destruct (existing_pins !! key_from_ireq ireq) as [previous |] eqn:Hprev.
  - rewrite map_size_insert_Some by eauto.
    destruct (error_spec (duplicate_msg ireq previous) (note_unpinned ireq f1)) as [-> _]. lia.
  - rewrite map_size_insert_None by done. lia.
Qed.

Lemma foldl_pin_step_errors_size ireqs existing_pins f :
  errors (foldl pin_step (existing_pins, f) ireqs).2
    + size (foldl pin_step (existing_pins, f) ireqs).1 =
  errors f + size existing_pins + length (read_keys ireqs).
Proof.
  revert existing_pins f. induction ireqs as [| ireq ireqs IH]; intros existing_pins f.
  - simpl. lia.
  - cbn [foldl]. unfold read_keys in *. rewrite filter_cons.
    pose proof (pin_step_errors_size existing_pins f ireq) as Hstep.
    destruct (pin_step (existing_pins, f) ireq) as [pins' f']. simpl in Hstep.
    rewrite IH. destruct (reaches_key ireq).
    + rewrite decide_True by done. rewrite fmap_cons. simpl. lia.
    + rewrite decide_False by done. lia.
Qed.

Lemma foldl_pin_step_filter ireqs (st : gmap string InstallRequirement * ErrorCounter) :
  foldl pin_step st (filter (λ r, reaches_key r = true) ireqs) = foldl pin_step st ireqs.
Proof.
  revert st. induction ireqs as [| ireq ireqs IH]; intros [existing_pins f]; [done |].
  rewrite filter_cons. destruct (reaches_key ireq) eqn:Hk.
  - rewrite decide_True by done. cbn [foldl]. apply IH.
  - rewrite decide_False by done. cbn [foldl].
    rewrite pin_step_skipped by done. apply IH.
Qed.

(** X4: The records that are neither editable nor carry a parsed requirement
    have no effect on the pass: the file without them gives the same map and
    the same counter. *)
Theorem collect_pins_ignores_unparsed ireqs f :
  collect_pins (filter (λ r, reaches_key r = true) ireqs) f = collect_pins ireqs f.
Proof. apply foldl_pin_step_filter. Qed.

(** X1: Every entry of the map is a record of the file, stored under its
    own key, that got past line 180; and every such record of the file has
    its key in the map. *)
Theorem collect_pins_entries ireqs f :
  (∀ key pin, (collect_pins ireqs f).1 !! key = Some pin →
     pin ∈ ireqs ∧ reaches_key pin = true ∧ key_from_ireq pin = key) ∧
  (∀ ireq, ireq ∈ ireqs → reaches_key ireq = true →
     is_Some ((collect_pins ireqs f).1 !! key_from_ireq ireq)).
Proof.
  split.
  - intros key pin. rewrite collect_pins_lookup. unfold last_read. intros Hlast.
    apply last_Some in Hlast as [l Hl].
    assert (Hin : pin ∈ filter (λ r, reaches_key r = true ∧ key_from_ireq r = key) ireqs)
      by (rewrite Hl; set_solver).
    apply list_elem_of_filter in Hin. tauto.
  - intros ireq Hin Hk. rewrite collect_pins_lookup. unfold last_read.
    apply last_is_Some. intros Hnil.
    assert (Hin' : ireq ∈ filter (λ r, reaches_key r = true ∧ key_from_ireq r = key_from_ireq ireq) ireqs)
      by (apply list_elem_of_filter; tauto).
    rewrite Hnil in Hin'. by apply not_elem_of_nil in Hin'.
Qed.

Lemma collect_pins_size_nodup ireqs f :
  size (collect_pins ireqs f).1 = length (read_keys ireqs) ↔ NoDup (read_keys ireqs).
Proof.
  destruct (foldl_pin_step_size (filter (λ r, reaches_key r = true) ireqs) ∅ f) as [_ Hiff].
  rewrite foldl_pin_step_filter, map_size_empty in Hiff. simpl in Hiff.
  fold (collect_pins ireqs f) in Hiff.
  unfold read_keys. rewrite length_fmap, Hiff.
  split; [tauto |]. intros Hnd. split; [done |]. split.
  - apply Forall_forall. intros r Hr. by apply list_elem_of_filter in Hr as [? _].
  - apply Forall_forall. intros; apply lookup_empty.
Qed.

(** X2: The errors that the pass counts and the entries of the map add up to
    the number of records read: one error for each record whose key was
    already there.  So the pass counts no error exactly when no key
    repeats. *)
Theorem collect_pins_errors ireqs f :
  errors (collect_pins ireqs f).2 + size (collect_pins ireqs f).1 =
    errors f + length (read_keys ireqs) ∧
  (errors (collect_pins ireqs f).2 = errors f ↔ NoDup (read_keys ireqs)).
Proof.
  pose proof (foldl_pin_step_errors_size ireqs ∅ f) as Hsum.
  rewrite map_size_empty, Nat.add_0_r in Hsum. fold (collect_pins ireqs f) in Hsum.
  split; [exact Hsum |].
  pose proof (collect_pins_size_nodup ireqs f) as Hnodup.
  split; intros Hx; [apply Hnodup | apply Hnodup in Hx]; lia.
Qed.

(** X3: The warnings of the pass are, record by record in the order of the
    file, "is editable" for an editable record with a name and "is unpinned"
    for a stored record that is neither pinned nor URL-based; each is
    counted, and logged when the counter is verbose. *)
Theorem collect_pins_warnings ireqs f :
  adds WARNING (concat (pin_warnings <$> ireqs)) f (collect_pins ireqs f).2.
Proof. apply foldl_pin_step_adds_warnings. Qed.

End PinPassMore.

(** ** The pass over the source requirements, and the whole run *)

Section SourcePassMore.
Context `{Utils} `{Packaging}.
Implicit Types (existing_pins : gmap string InstallRequirement) (f : ErrorCounter).

(** The step, case by case. *)
Lemma check_step_unfold existing_pins ireq f :
  check_step existing_pins ireq f =
    if step_ok existing_pins ireq
    then Done tt (if reported existing_pins ireq
                  then error (reported_msg existing_pins ireq) f else f)
    else Raised (step_exn existing_pins ireq) f.
Proof.
  unfold check_step, step_ok, reported, reported_msg, step_exn, pinned_version,
    bind, getitem, first_version, specifier, bind, has_specifier.
  destruct (existing_pins !! key_from_ireq ireq) as [pin |]; simpl.
  - rewrite andb_false_r.
    destruct (req ireq) as [r |]; simpl; [| by destruct (req pin) as [[? []] |]].
    destruct (req_specifier r) as [| c cs] eqn:Hr; simpl.
    { by destruct (req pin) as [[? [| [? ?] ?]] |]. }
    destruct (req pin) as [rp |]; simpl; [| done].
    destruct (req_specifier rp) as [| [op version] more]; simpl; [done |].
    by destruct (contains _ _).
  - rewrite andb_true_r. by destruct (constraint ireq).
Qed.

Lemma check_step_adds_warnings existing_pins ireq f :
  adds WARNING [] f (counter_of (check_step existing_pins ireq f)).
Proof.
  rewrite check_step_unfold.
  destruct (step_ok _ _); simpl; [| apply adds_refl].
  destruct (reported _ _); [apply (proj2 (adds_error _ _)) | apply adds_refl].
Qed.

Lemma for_each_check_step_adds_warnings existing_pins constraints f :
  adds WARNING [] f (counter_of (for_each (check_step existing_pins) constraints f)).
Proof.
  revert f. induction constraints as [| ireq constraints IH]; intros f; [apply adds_refl |].
  simpl. unfold bind.
  pose proof (check_step_adds_warnings existing_pins ireq f) as Hstep.
  destruct (check_step existing_pins ireq f) as [[] f' | e f']; simpl in Hstep; [| done].
  change (@nil string) with (@nil string ++ []). eapply adds_trans; [exact Hstep | apply IH].
Qed.

(** When every step completes, the loop completes, and its errors are those
    of the records reported, in order. *)
Lemma for_each_check_step_ok existing_pins constraints f :
  Forall (λ r, step_ok existing_pins r = true) constraints →
  ∃ f', for_each (check_step existing_pins) constraints f = Done tt f' ∧
        adds ERROR (reported_msg existing_pins <$>
                      filter (λ r, reported existing_pins r = true) constraints) f f'.
Proof.
  revert f. induction constraints as [| ireq constraints IH]; intros f Hall.
  - exists f. split; [done | apply adds_refl].
  - apply Forall_cons in Hall as [Hok Hall].
    destruct (IH (if reported existing_pins ireq
                  then error (reported_msg existing_pins ireq) f else f) Hall)
      as (f' & Hrun & Hadds).
    exists f'. simpl. unfold bind. rewrite check_step_unfold, Hok. split; [exact Hrun |].
    rewrite filter_cons. destruct (reported existing_pins ireq).
    + rewrite decide_True by done. rewrite fmap_cons.
      apply (adds_trans _ [_] _ _ _ _ (proj1 (adds_error _ _)) Hadds).
    + rewrite decide_False by done. exact Hadds.
Qed.

(** A loop that completes met no record for which the step does not. *)
Lemma for_each_check_step_done existing_pins constraints f f' :
  for_each (check_step existing_pins) constraints f = Done tt f' →
  Forall (λ r, step_ok existing_pins r = true) constraints.
Proof.
  revert f. induction constraints as [| ireq constraints IH]; intros f; [by constructor |].
  simpl. unfold bind. rewrite check_step_unfold.
  destruct (step_ok existing_pins ireq) eqn:Hok; [| discriminate].
  intros Hrun. constructor; [exact Hok | by eapply IH].
Qed.

(** X5: The loop over the source records ends at the first record for which
    a step does not complete, with the exception of that step: [KeyError]
    for a constraint-only record whose key is not in the map,
    [StopIteration] or [AttributeError] for a record with clauses whose pin
    has none.  It completes exactly when there is no such record. *)
Theorem source_pass_stops_at_first_failure existing_pins constraints f :
  match for_each (check_step existing_pins) constraints f with
  | Done _ _ => Forall (λ r, step_ok existing_pins r = true) constraints
  | Raised e _ =>
      ∃ before ireq after,
        constraints = before ++ ireq :: after ∧
        Forall (λ r, step_ok existing_pins r = true) before ∧
        step_ok existing_pins ireq = false ∧
        e = step_exn existing_pins ireq
  end.
Proof.
  revert f. induction constraints as [| ireq constraints IH]; intros f; [by simpl |].
  simpl. unfold bind. rewrite check_step_unfold.
  destruct (step_ok existing_pins ireq) eqn:Hok.
  - match goal with |- context [for_each _ _ ?g] => specialize (IH g) end.
    destruct (for_each _ _ _) as [[] f' | e f'].
    + by constructor.
    + destruct IH as (before & bad & after & -> & Hbefore & Hbad & ->).
      exists (ireq :: before), bad, after. repeat split; [| done].
      by constructor.
  - exists [], ireq, constraints. repeat split; [constructor | done].
Qed.

(** X6: When every step completes, the loop counts one error for each record
    that is missing (not constraint-only, key not in the map) or
    incompatible (the version of the pin does not satisfy the clauses of
    the record), and nothing else; the messages follow the order of the
    records. *)
Theorem source_pass_errors existing_pins constraints f :
  Forall (λ r, step_ok existing_pins r = true) constraints →
  ∃ f', for_each (check_step existing_pins) constraints f = Done tt f' ∧
        adds ERROR (reported_msg existing_pins <$>
                      filter (λ r, reported existing_pins r = true) constraints) f f' ∧
        adds WARNING [] f f'.
Proof.
  intros Hall. destruct (for_each_check_step_ok existing_pins constraints f Hall)
    as (f' & Hrun & Hadds).
  exists f'. repeat split; try apply Hadds; [exact Hrun | ..];
    pose proof (for_each_check_step_adds_warnings existing_pins constraints f) as Hw;
    rewrite Hrun in Hw; apply Hw.
Qed.

End SourcePassMore.

Section WholeRun.
Context `{Utils} `{Packaging}.
Implicit Types (existing_pins : gmap string InstallRequirement) (f g : ErrorCounter).

Lemma report_adds lv ms req_file ccc f g :
  lv = ERROR ∨ lv = WARNING → adds lv ms f g →
  adds lv ms f (counter_of (report req_file ccc g)).
Proof.
  intros Hlv Hadds. unfold report.
  destruct (any_failure g); [destruct (negb _) |]; simpl;
    repeat (apply adds_log_to; [by destruct Hlv as [-> | ->] |]); exact Hadds.
Qed.

Lemma checks_adds_warnings quiet ireqs sources :
  adds WARNING (concat (pin_warnings <$> ireqs)) (new_counter quiet)
    (counter_of (checks quiet ireqs sources)).
Proof.
  unfold checks.
  pose proof (foldl_pin_step_adds_warnings ireqs ∅ (new_counter quiet)) as Hpins.
  fold (collect_pins ireqs (new_counter quiet)) in Hpins.
  pose proof (for_each_check_step_adds_warnings
    (collect_pins ireqs (new_counter quiet)).1 (collect_sources sources).2
    (collect_pins ireqs (new_counter quiet)).2) as Hsrc.
  pose proof (adds_trans _ _ _ _ _ _ Hpins Hsrc) as Hrun.
  by rewrite app_nil_r in Hrun.
Qed.

(** X7: The warnings of a whole run are those of the pass over the file
    being checked: for each of its records in order, "is editable" and "is
    unpinned" as they apply.  Neither the source files nor the report add
    one. *)
Theorem cli_warnings_are_those_of_the_file quiet req_file ccc ireqs sources :
  adds WARNING (concat (pin_warnings <$> ireqs)) (new_counter quiet)
    (counter_of (cli quiet req_file ccc ireqs sources)).
Proof.
  rewrite cli_checks.
  pose proof (checks_adds_warnings quiet ireqs sources) as Hrun.
  destruct (checks quiet ireqs sources) as [[] f | e f]; simpl in *; [| exact Hrun].
  apply report_adds; [by right | exact Hrun].
Qed.

(** *** What the logger gets and what is counted *)

Lemma tallied_adds es ws f g :
  tallied f → adds ERROR es f g → adds WARNING ws f g → tallied g.
Proof.
  unfold tallied. intros Hf (Hv & He & Hme) (_ & Hw & Hmw). simpl in He, Hw.
  rewrite Hv, Hme, Hmw, He, Hw.
  destruct (verbose f); destruct Hf as [Hfe Hfw].
  - rewrite !length_app. lia.
  - by rewrite Hfe, Hfw.
Qed.

Lemma tallied_error msg f : tallied f → tallied (error msg f).
Proof. intros Hf. destruct (adds_error msg f). by eapply tallied_adds. Qed.

Lemma tallied_warning msg f : tallied f → tallied (warning msg f).
Proof. intros Hf. destruct (adds_warning msg f). by eapply tallied_adds. Qed.

Lemma tallied_pin_step existing_pins f ireq :
  tallied f → tallied (pin_step (existing_pins, f) ireq).2.
Proof.
  intros Hf. rewrite pin_step_counter. cbv zeta.
  assert (H1 : tallied (if editable ireq && truthy (name ireq)
                        then warning (editable_msg ireq) f else f)).
  { destruct (_ && _); [by apply tallied_warning | done]. }
  destruct (reaches_key ireq); [| done].
  unfold note_duplicate, note_unpinned.
  destruct (existing_pins !! key_from_ireq ireq);
    destruct (negb (is_pinned_requirement ireq) && negb (is_url_requirement ireq));
    auto using tallied_error, tallied_warning.
Qed.

Lemma tallied_foldl_pin_step ireqs existing_pins f :
  tallied f → tallied (foldl pin_step (existing_pins, f) ireqs).2.
Proof.
  revert existing_pins f. induction ireqs as [| ireq ireqs IH]; intros existing_pins f Hf;
    [done |].
  cbn [foldl]. pose proof (tallied_pin_step existing_pins f ireq Hf) as Hstep.
  destruct (pin_step (existing_pins, f) ireq) as [pins' f']. by apply IH.
Qed.

Lemma tallied_for_each existing_pins constraints f :
  tallied f → tallied (counter_of (for_each (check_step existing_pins) constraints f)).
Proof.
  revert f. induction constraints as [| ireq constraints IH]; intros f Hf; [done |].
  simpl. unfold bind. rewrite check_step_unfold.
  destruct (step_ok _ _); [| done]. apply IH.
  destruct (reported _ _); [by apply tallied_error | done].
Qed.

Lemma tallied_report req_file ccc f :
  tallied f → tallied (counter_of (report req_file ccc f)).
Proof.
  intros Hf. eapply tallied_adds; [exact Hf | |];
    (apply report_adds; [tauto | apply adds_refl]).
Qed.

(** X8: At the end of a run, whether it completes or raises, the logger has
    been sent exactly as many errors and as many warnings as were counted
    when the run is verbose ([quiet] is 0), and none when it is quiet: the
    counts of the summary are not affected by [--quiet]. *)
Theorem cli_log_matches_counts quiet req_file ccc ireqs sources :
  let f := counter_of (cli quiet req_file ccc ireqs sources) in
  if quiet =? 0
  then length (messages ERROR f) = errors f ∧ length (messages WARNING f) = warnings f
  else messages ERROR f = [] ∧ messages WARNING f = [].
Proof.
  intros f.
  assert (Hv : verbose f = (quiet =? 0)).
  { subst f. rewrite cli_checks.
    pose proof (checks_adds_warnings quiet ireqs sources) as Hrun.
    destruct (checks quiet ireqs sources) as [[] g | e g]; simpl in *;
      [| exact (proj1 Hrun)].
    exact (proj1 (report_adds WARNING _ req_file ccc _ g (or_intror eq_refl) Hrun)). }
  assert (Ht : tallied f).
  { subst f. rewrite cli_checks. unfold checks.
    assert (Hnew : tallied (new_counter quiet))
      by (unfold tallied; simpl; by destruct (quiet =? 0)).
    pose proof (tallied_for_each (collect_pins ireqs (new_counter quiet)).1
      (collect_sources sources).2 _
      (tallied_foldl_pin_step ireqs ∅ (new_counter quiet) Hnew)) as Hrun.
    fold (collect_pins ireqs (new_counter quiet)) in Hrun.
    destruct (for_each _ _ _) as [[] g | e g]; simpl in *; [| exact Hrun].
    by apply tallied_report. }
  unfold tallied in Ht. by rewrite Hv in Ht.
Qed.

(** *** The run and [--quiet] *)

Lemma same_counts_error msg f g : same_counts f g → same_counts (error msg f) (error msg g).
Proof.
  intros [He Hw]. destruct (error_spec msg f) as (? & ? & _), (error_spec msg g) as (? & ? & _).
  split; congruence.
Qed.

Lemma same_counts_warning msg f g :
  same_counts f g → same_counts (warning msg f) (warning msg g).
Proof.
  intros [He Hw].
  destruct (warning_spec msg f) as (? & ? & _), (warning_spec msg g) as (? & ? & _).
  split; congruence.
Qed.

Lemma pin_step_same_counts existing_pins f g ireq :
  same_counts f g →
  same_counts (pin_step (existing_pins, f) ireq).2 (pin_step (existing_pins, g) ireq).2.
Proof.
  intros Hfg. rewrite !pin_step_counter. cbv zeta.
  unfold note_duplicate, note_unpinned.
  destruct (editable ireq && truthy (name ireq)), (reaches_key ireq),
    (existing_pins !! key_from_ireq ireq),
    (negb (is_pinned_requirement ireq) && negb (is_url_requirement ireq));
    auto using same_counts_error, same_counts_warning.
Qed.

Lemma foldl_pin_step_same_counts ireqs existing_pins f g :
  same_counts f g →
  (foldl pin_step (existing_pins, f) ireqs).1 = (foldl pin_step (existing_pins, g) ireqs).1 ∧
  same_counts (foldl pin_step (existing_pins, f) ireqs).2
              (foldl pin_step (existing_pins, g) ireqs).2.
Proof.
  revert existing_pins f g.
  induction ireqs as [| ireq ireqs IH]; intros existing_pins f g Hfg; [done |].
  cbn [foldl].
  pose proof (pin_step_pins existing_pins f ireq) as Hp1.
  pose proof (pin_step_pins existing_pins g ireq) as Hp2.
  pose proof (pin_step_same_counts existing_pins f g ireq Hfg) as Hc.
  destruct (pin_step (existing_pins, f) ireq) as [p1 f1].
  destruct (pin_step (existing_pins, g) ireq) as [p2 g1].
  simpl in *. subst p1 p2. by apply IH.
Qed.

Lemma for_each_check_step_same_counts existing_pins constraints f g :
  same_counts f g →
  same_result (for_each (check_step existing_pins) constraints f)
              (for_each (check_step existing_pins) constraints g).
Proof.
  revert f g. induction constraints as [| ireq constraints IH]; intros f g Hfg; [done |].
  simpl. unfold bind. rewrite !check_step_unfold.
  destruct (step_ok _ _); [| done]. apply IH.
  destruct (reported _ _); [by apply same_counts_error | done].
Qed.

Lemma report_same_counts req_file ccc f g :
  same_counts f g → same_result (report req_file ccc f) (report req_file ccc g).
Proof.
  intros [He Hw]. unfold report, any_failure. simpl. rewrite He, Hw.
  destruct (negb (errors g =? 0)); simpl; [done |].
  destruct (negb (warnings g =? 0)); simpl; done.
Qed.

(** X9: [--quiet] changes what the logger is sent and nothing else: with any
    two values of [quiet], the run ends in the same way (the same exit
    status, or the same exception) with the same counts of errors and of
    warnings. *)
Theorem quiet_changes_only_the_log quiet quiet' req_file ccc ireqs sources :
  same_result (cli quiet req_file ccc ireqs sources) (cli quiet' req_file ccc ireqs sources).
Proof.
  rewrite !cli_checks. unfold checks, collect_pins.
  assert (Hnew : same_counts (new_counter quiet) (new_counter quiet')) by done.
  destruct (foldl_pin_step_same_counts ireqs ∅ _ _ Hnew) as [Hpins Hcounts].
  rewrite <- Hpins.
  pose proof (for_each_check_step_same_counts
    (foldl pin_step (∅, new_counter quiet) ireqs).1 (collect_sources sources).2 _ _ Hcounts)
    as Hrun.
  destruct (for_each _ _ (foldl pin_step (∅, new_counter quiet) ireqs).2) as [[] f | e f],
    (for_each _ _ (foldl pin_step (∅, new_counter quiet') ireqs).2) as [[] g | e' g];
    simpl in Hrun; try done.
  apply report_same_counts. tauto.
Qed.

(** *** What exit status 0 tells *)

(** X10: When a run ends with exit status 0, no key repeats in the file being
    checked, and every source record that applies to the environment,
    constraint-only or not, has its key in the map; when the record has
    clauses, its pin has a version and that version satisfies them. *)
Theorem exit_status_zero_means_consistent quiet req_file ccc ireqs sources f :
  cli quiet req_file ccc ireqs sources = Done 0%Z f →
  NoDup (read_keys ireqs) ∧
  ∀ ireq, ireq ∈ (collect_sources sources).2 →
    ∃ pin, (collect_pins ireqs (new_counter quiet)).1 !! key_from_ireq ireq = Some pin ∧
           (has_specifier ireq = true →
            ∃ r version, req ireq = Some r ∧ pinned_version pin = Some version ∧
                         contains (req_specifier r) version = true).
Proof.
  rewrite cli_checks. unfold checks. intros Hcli.
  remember (collect_pins ireqs (new_counter quiet)).1 as pins eqn:Hpins.
  remember (collect_pins ireqs (new_counter quiet)).2 as f0 eqn:Hf0.
  destruct (for_each _ _ _) as [[] f1 | e f1] eqn:Hrun; [| done].
  pose proof (for_each_check_step_done _ _ _ _ Hrun) as Hstop.
  destruct (report_spec req_file ccc f1) as (f' & Hrep & _). rewrite Hrep in Hcli.
  assert (He1 : errors f1 = 0).
  { destruct (errors f1); [done | discriminate]. }
  destruct (for_each_check_step_ok pins (collect_sources sources).2 f0 Hstop)
    as (f2 & Hrun' & _ & Hcount & _).
  rewrite Hrun in Hrun'. injection Hrun' as <-. unfold count in Hcount.
  rewrite length_fmap in Hcount.
  assert (He0 : errors f0 = 0) by lia.
  assert (Hnone : filter (λ r, reported pins r = true) (collect_sources sources).2 = []).
  { apply length_zero_iff_nil. lia. }
  split.
  - apply (collect_pins_size_nodup ireqs (new_counter quiet)).
    pose proof (foldl_pin_step_errors_size ireqs ∅ (new_counter quiet)) as Hsum.
    rewrite map_size_empty in Hsum. fold (collect_pins ireqs (new_counter quiet)) in Hsum.
    rewrite <- Hf0, He0 in Hsum. simpl in Hsum. lia.
  - intros ireq Hin.
    assert (Hok : step_ok pins ireq = true).
    { rewrite Forall_forall in Hstop. by apply Hstop. }
    assert (Hrep' : reported pins ireq = false).
    { destruct (reported pins ireq) eqn:Hr; [| done].
      assert (ireq ∈ filter (λ r, reported pins r = true) (collect_sources sources).2)
        as Hbad by (apply list_elem_of_filter; done).
      rewrite Hnone in Hbad. by apply not_elem_of_nil in Hbad. }
    unfold step_ok, reported in Hok, Hrep'.
    destruct (pins !! key_from_ireq ireq) as [pin |]; [| congruence].
    exists pin. split; [done |]. intros Hs. rewrite Hs in Hok, Hrep'. simpl in Hok.
    unfold has_specifier in Hs, Hok. unfold pinned_version in *.
    destruct (req ireq) as [r |]; [| done].
    destruct (req pin) as [rp |]; [| done].
    destruct (req_specifier rp) as [| [op version] more]; [done |].
    exists r, version. repeat split. simpl in Hrep'. by apply negb_false_iff in Hrep'.
Qed.

End WholeRun.

(** ** Formatting and the arguments *)

Section Strings.

Lemma substring_0_length s : String.substring 0 (String.length s) s = s.
Proof. induction s as [| c s IH]; simpl; [done | by rewrite IH]. Qed.

Lemma substring_skip a b n :
  String.substring (String.length a) n (a +:+ b) = String.substring 0 n b.
Proof. induction a as [| c a IH]; simpl; [done | exact IH]. Qed.

Lemma length_append a b : String.length (a +:+ b) = String.length a + String.length b.
Proof. induction a as [| c a IH]; simpl; [done | by rewrite IH]. Qed.

Lemma prefix_append p s : String.prefix p (p +:+ s) = true.
Proof.
  induction p as [| c p IH]; simpl; [by destruct s |].
  by destruct (ascii_dec c c).
Qed.

Lemma drop3_flag flag origin :
  String.length flag = 3 → drop3 (flag +:+ origin) = origin.
Proof.
  destruct flag as [| c1 [| c2 [| c3 [| c4 flag]]]]; try discriminate. intros _.
  unfold drop3. simpl. rewrite Nat.sub_0_r. apply substring_0_length.
Qed.

Lemma endswith_append base suffix : endswith (base +:+ suffix) suffix = true.
Proof.
  unfold endswith. rewrite length_append.
  replace (String.length base + String.length suffix - String.length suffix)
    with (String.length base) by lia.
  rewrite substring_skip, substring_0_length, String.eqb_refl, andb_true_r.
  apply Nat.leb_le. lia.
Qed.

Lemma contains_dot_append base ext : contains_dot (base +:+ "." +:+ ext) = true.
Proof. induction base as [| c base IH]; simpl; [done | by rewrite IH, orb_true_r]. Qed.

Lemma rsplit_dot_head_no_dot s : contains_dot s = false → rsplit_dot_head s = s.
Proof.
  destruct s as [| c s]; simpl; [done |]. intros Hdot.
  apply orb_false_iff in Hdot as [-> ->]. reflexivity.
Qed.

Lemma rsplit_dot_head_append base ext :
  contains_dot ext = false → rsplit_dot_head (base +:+ "." +:+ ext) = base.
Proof.
  intros Hext. induction base as [| c base IH].
  - change (rsplit_dot_head ("" +:+ "." +:+ ext))
      with (if contains_dot ext then String "." (rsplit_dot_head ext) else "").
    by rewrite Hext.
  - change (rsplit_dot_head (String c base +:+ "." +:+ ext))
      with (if contains_dot (base +:+ "." +:+ ext)
            then String c (rsplit_dot_head (base +:+ "." +:+ ext))
            else if bool_decide (c = "."%char) then ""
            else String c (base +:+ "." +:+ ext)).
    by rewrite contains_dot_append, IH.
Qed.

Lemma contains_dot_not_empty_nor_dash s :
  contains_dot s = true → String.eqb s "" = false ∧ String.eqb s "-" = false.
Proof.
  destruct s as [| c s]; simpl; [done |]. intros Hdot. split; [done |].
  destruct (Ascii.eqb c "-") eqn:Hc; [| done].
  apply Ascii.eqb_eq in Hc as ->. simpl in Hdot.
  destruct s; [done | reflexivity].
Qed.

End Strings.

(** X11: [format_comes_from] takes the flag off an origin that starts with
    [-r ] and leaves an origin that starts with [-c ] as it is. *)
Theorem format_comes_from_strips_r_only ireq origin :
  (comes_from ireq = "-r " +:+ origin → format_comes_from ireq = origin) ∧
  (comes_from ireq = "-c " +:+ origin → format_comes_from ireq = "-c " +:+ origin).
Proof.
  unfold format_comes_from. split; intros ->.
  - rewrite prefix_append. by apply drop3_flag.
  - reflexivity.
Qed.

(** X12: [format_constraint] renders a record as its requirement, " from ",
    and its origin without the pip flag, for [-r ] and for [-c ] alike. *)
Theorem format_constraint_strips_flag `{Utils} ireq origin :
  comes_from ireq = "-r " +:+ origin ∨ comes_from ireq = "-c " +:+ origin →
  format_constraint ireq = format_requirement ireq +:+ " from " +:+ origin.
Proof.
  unfold format_constraint. intros [-> | ->]; cbv zeta.
  - rewrite prefix_append. simpl orb. cbv iota. by rewrite drop3_flag.
  - rewrite (prefix_append "-c " origin), orb_true_r. by rewrite drop3_flag.
Qed.

Section ArgumentsProperties.
Variable path_exists : string → bool.

(** X13: A file to check whose name ends in [.in] is refused, whatever the
    source files and the file system are. *)
Theorem req_file_in_extension_refused source_file base :
  ∃ message,
    resolve_arguments path_exists source_file (Some (base +:+ ".in")) = BadParameter message.
Proof.
  unfold resolve_arguments, check_req_file.
  assert (Hne : truthy (Some (base +:+ ".in")) = true) by (by destruct base).
  rewrite Hne. simpl. rewrite endswith_append. eauto.
Qed.

(** X14: Without [--source-file], for a file to check [base.ext] that is not
    [.in], the source file is [base.in] when it exists, else [setup.py] when
    that exists, else the run is refused: only what follows the last dot is
    replaced. *)
Theorem source_file_derived_from_req_file base ext :
  contains_dot ext = false →
  endswith (base +:+ "." +:+ ext) ".in" = false →
  let req_file := base +:+ "." +:+ ext in
  resolve_arguments path_exists [] (Some req_file) =
    if path_exists (base +:+ ".in") then Files req_file [base +:+ ".in"]
    else if path_exists "setup.py" then Files req_file ["setup.py"]
    else BadParameter ("If you do not specify a source file, the default is "
                         +:+ (base +:+ ".in") +:+ " or setup.py").
Proof.
  intros Hext Hin req_file.
  destruct (contains_dot_not_empty_nor_dash req_file (contains_dot_append base ext))
    as [Hempty Hdash].
  unfold resolve_arguments, truthy. rewrite Hempty.
  match goal with |- _ = ?rhs =>
    change (check_req_file path_exists [] req_file = rhs) end.
  unfold check_req_file. fold req_file in Hin. rewrite Hin.
  unfold resolve_source_file.
  change (length (@nil string) =? 0) with true. cbv iota. rewrite Hdash.
  unfold req_file. by rewrite rsplit_dot_head_append.
Qed.

(** X15: Reading the file to check from standard input without
    [--source-file] is accepted exactly when [requirements.in] or [setup.py]
    exists, and then the source files the run goes on with are none: the
    name found is bound to [source_files], which nothing reads. *)
Theorem stdin_leaves_source_file_empty :
  resolve_arguments path_exists [] (Some "-") =
    if path_exists "requirements.in" || path_exists "setup.py" then Files "-" []
    else BadParameter "If input is from stdin, the default is requirements.in or setup.py".
Proof.
  unfold resolve_arguments, check_req_file, resolve_source_file. simpl.
  unfold DEFAULT_REQUIREMENTS_SOURCE_FILE.
  by destruct (path_exists "requirements.in"), (path_exists "setup.py").
Qed.

Lemma check_req_file_accepted source_file r rf sf :
  check_req_file path_exists source_file r = Files rf sf →
  rf = r ∧ endswith rf ".in" = false ∧
  resolve_source_file path_exists source_file rf = Files rf sf.
Proof.
  unfold check_req_file. destruct (endswith r ".in") eqn:Hin; [discriminate |].
  intros Hres. assert (rf = r) as ->; [| done].
  unfold resolve_source_file in Hres.
  destruct (length source_file =? 0), (String.eqb r "-"),
    (path_exists DEFAULT_REQUIREMENTS_SOURCE_FILE), (path_exists "setup.py"),
    (path_exists (rsplit_dot_head r +:+ ".in")); congruence.
Qed.

(** X16: When the arguments are accepted, the file to check is not empty and
    does not end in [.in]; it is the one given, or [requirements.txt], which
    then exists, when none is given (and then at most one source file was
    given); source files that were given are kept as they are; when none
    was given and the file to check is not standard input, there is exactly
    one source file, it exists, and it is the file to check with [.in] for
    what follows its last dot, or [setup.py]. *)
Theorem resolve_arguments_accepted source_file req_file rf sf :
  resolve_arguments path_exists source_file req_file = Files rf sf →
  rf ≠ "" ∧ endswith rf ".in" = false ∧
  (truthy req_file = true → req_file = Some rf) ∧
  (truthy req_file = false →
     rf = "requirements.txt" ∧ path_exists rf = true ∧ length source_file ≤ 1) ∧
  (source_file ≠ [] → sf = source_file) ∧
  (source_file = [] → rf ≠ "-" →
     ∃ file_name, sf = [file_name] ∧ path_exists file_name = true ∧
       (file_name = rsplit_dot_head rf +:+ ".in" ∨ file_name = "setup.py")).
Proof.
  unfold resolve_arguments. intros Hres.
  assert (Hfirst : rf ≠ "" ∧
                   (truthy req_file = true → req_file = Some rf) ∧
                   (truthy req_file = false →
                      rf = "requirements.txt" ∧ path_exists rf = true
                      ∧ length source_file ≤ 1) ∧
                   endswith rf ".in" = false ∧
                   resolve_source_file path_exists source_file rf = Files rf sf).
  { destruct (truthy req_file) eqn:Ht; cbv [negb] in Hres.
    - destruct req_file as [r |]; [| discriminate Ht].
      change (default "" (Some r)) with r in Hres.
      apply check_req_file_accepted in Hres as (-> & Hin & Hsrc).
      split; [| split; [done | split; [discriminate | done]]].
      intros ->. discriminate Ht.
    - destruct (1 <? length source_file) eqn:Hlen; [discriminate |].
      destruct (path_exists DEFAULT_REQUIREMENTS_FILE) eqn:Hex; [| discriminate].
      apply check_req_file_accepted in Hres as (-> & Hin & Hsrc).
      apply Nat.ltb_ge in Hlen.
      split; [discriminate |]. split; [discriminate |]. split; [| done].
      intros _. split; [reflexivity |]. split; [exact Hex | lia]. }
  destruct Hfirst as (Hne & Hgiven & Hdefault & Hin & Hsrc).
  split; [exact Hne |]. split; [exact Hin |]. split; [exact Hgiven |].
  split; [exact Hdefault |].
  unfold resolve_source_file in Hsrc. split.
  - intros Hsf. destruct source_file as [| name0 more]; [done |].
    change (length (name0 :: more) =? 0) with false in Hsrc. congruence.
  - intros -> Hdash.
    change (length (@nil string) =? 0) with true in Hsrc. cbv iota in Hsrc.
    apply String.eqb_neq in Hdash. rewrite Hdash in Hsrc.
    destruct (path_exists (rsplit_dot_head rf +:+ ".in")) eqn:Hfirst.
    + injection Hsrc as <-. eauto.
    + destruct (path_exists "setup.py") eqn:Hsetup; [| discriminate].
      injection Hsrc as <-. eauto.
Qed.

End ArgumentsProperties.

(** ** The further properties on concrete files *)

Section MoreExamples.
Import Sample.
#[local] Existing Instance SpecModel.utils.
#[local] Existing Instance Sample.packaging.

(** A constraint from [constraints.txt]. *)
Lemma format_constraint_strips_flag_witness :
  comes_from six_constraint = "-c " +:+ "constraints.txt (line 1)" ∧
  format_constraint six_constraint = "six>=1.10.0 from constraints.txt (line 1)".
Proof.
  split; [reflexivity |].
  exact (format_constraint_strips_flag six_constraint "constraints.txt (line 1)"
           (or_intror eq_refl)).
Defined.

(** Sources [django], [six] against the file [six==1.10.0]: the loop
    completes and counts [django] as missing. *)
Lemma source_pass_errors_witness :
  let existing_pins := (collect_pins [six_1_10_0] (new_counter 0)).1 in
  Forall (λ r, step_ok existing_pins r = true) [django_any; six_second] ∧
  ∃ f', for_each (check_step existing_pins) [django_any; six_second] (new_counter 0)
          = Done tt f' ∧
        errors f' = 1 ∧
        messages ERROR f' = ["missing requirement django from requirements.in (line 1)"].
Proof.
  intros existing_pins.
  assert (Hok : Forall (λ r, step_ok existing_pins r = true) [django_any; six_second])
    by (repeat constructor).
  split; [exact Hok |].
  destruct (source_pass_errors existing_pins [django_any; six_second] (new_counter 0) Hok)
    as (f' & Hrun & (_ & Hcount & Hmsgs) & _).
  exists f'. split; [exact Hrun |]. split; [exact Hcount | exact Hmsgs].
Defined.

(** Source [six] against the file [six==1.10.0]: exit status 0. *)
Lemma exit_status_zero_means_consistent_witness :
  run [six_1_10_0] [[six_any]] = Done 0%Z (counter_of (run [six_1_10_0] [[six_any]])) ∧
  NoDup (read_keys [six_1_10_0]) ∧
  ∃ pin, (collect_pins [six_1_10_0] (new_counter 0)).1 !! "six" = Some pin.
Proof.
  assert (Hrun : run [six_1_10_0] [[six_any]]
                 = Done 0%Z (counter_of (run [six_1_10_0] [[six_any]])))
    by (vm_compute; reflexivity).
  destruct (exit_status_zero_means_consistent 0 "requirements.txt" None
              [six_1_10_0] [[six_any]] _ Hrun) as [Hnodup Hpinned].
  split; [exact Hrun |]. split; [exact Hnodup |].
  destruct (Hpinned six_any) as (pin & Hpin & _).
  - unfold collect_sources. simpl. rewrite filter_cons, decide_True by done.
    apply list_elem_of_here.
  - exists pin. exact Hpin.
Defined.

(** [requirements.txt] beside [requirements.in]. *)
Lemma source_file_derived_from_req_file_witness :
  contains_dot "txt" = false ∧
  endswith ("requirements" +:+ "." +:+ "txt") ".in" = false ∧
  resolve_arguments (λ path, String.eqb path "requirements.in") []
    (Some "requirements.txt") = Files "requirements.txt" ["requirements.in"].
Proof.
  split; [reflexivity |]. split; [reflexivity |].
  exact (source_file_derived_from_req_file (λ path, String.eqb path "requirements.in")
           "requirements" "txt" eq_refl eq_refl).
Defined.

(** No argument at all, in a directory that has [requirements.txt] and
    [setup.py]. *)
Lemma resolve_arguments_accepted_witness :
  let path_exists := λ path, String.eqb path "requirements.txt" || String.eqb path "setup.py" in
  resolve_arguments path_exists [] None = Files "requirements.txt" ["setup.py"] ∧
  endswith "requirements.txt" ".in" = false ∧
  path_exists "requirements.txt" = true.
Proof.
  intros path_exists.
  assert (Hres : resolve_arguments path_exists [] None
                 = Files "requirements.txt" ["setup.py"]) by reflexivity.
  destruct (resolve_arguments_accepted path_exists [] None _ _ Hres)
    as (_ & Hin & _ & Hdefault & _).
  split; [exact Hres |]. split; [exact Hin |].
  by destruct (Hdefault eq_refl) as (_ & Hex & _).
Defined.

End MoreExamples.
